(** * Pedigree graph model and relatedness-coefficient engine

    A shallow embedding of the TypeScript sources
      - [lib/genetics.ts]           (coefficient engine, ancestor-path finder),
      - [lib/pedigree-templates.ts] (static template graphs),
      - [lib/dynamic-pedigree.ts]   (dynamic pedigree, merge map, editor),
      - [types/index.ts]            (the records they share),
      - [App.tsx] and the selection state of [InteractiveGraph]
                                    (the application state and its handlers),
    together with the properties the specification states about them
    and further properties read off the code.

    Modelling conventions.
    - A JavaScript [number] is an exact rational [Q], compared with [==].
      Every constant of the source tables is a dyadic rational with a
      numerator of a few bits, and the engine only adds, multiplies and
      halves such values.  A double holds them without rounding as long
      as the sums stay within 53 bits and no power of 1/2 underflows;
      the loops over lists of paths leave that range on long lists and
      on long paths, so what depends on the exact value of such a sum
      is stated on bounded inputs ([exactInputs], [exactPathList]),
      where [==] on the model is equality of the doubles.
      Counters (path lengths, depths, generations) are [nat].
    - A [Map] that is only read with [get]/[has] and written with [set] is
      a [gmap]; a [Set] is a [gset]; a [Map] that is also iterated is an
      insertion-ordered association list ([omap]), because iteration
      order decides the order of the result.
    - [undefined] and [null] are [None].
    - Mutation is explicit state passing.  A [while] loop or a recursion
      that the source does not bound takes a [fuel] argument and returns
      [None] when the fuel runs out; [Some] means the source returns.
      Results about such functions are stated for every fuel above an
      explicit bound. *)

From Stdlib Require Import QArith Qminmax Qpower.
From stdpp Require Import gmap strings list fin_maps relations.

Local Open Scope string_scope.
Local Open Scope list_scope.

(** ** JavaScript helpers *)

(** [x || d] on numbers: [0] is falsy. *)
Definition js_or (x d : Q) : Q := if Qeq_bool x 0 then d else x.

(** Truthiness of a string: only the empty string is falsy. *)
Definition truthy (s : string) : bool :=
  match s with EmptyString => false | String _ _ => true end.

(** [Math.pow(0.5, n)] for an integer exponent.  The double is this
    rational up to [n = 1074] and 0 above. *)
Definition pow_half (n : Z) : Q := ((1 # 2) ^ n)%Q.

(** ** Insertion-ordered maps (an iterated JavaScript [Map]) *)

Definition omap (V : Type) : Type := list (string * V).

Fixpoint oget {V} (k : string) (m : omap V) : option V :=
  match m with
  | [] => None
  | (k', v) :: m' => if String.eqb k k' then Some v else oget k m'
  end.

Definition ohas {V} (k : string) (m : omap V) : bool :=
  match oget k m with Some _ => true | None => false end.

(** [m.set(k, v)]: an existing key keeps its position. *)
Fixpoint oset {V} (k : string) (v : V) (m : omap V) : omap V :=
  match m with
  | [] => [(k, v)]
  | (k', v') :: m' =>
      if String.eqb k k' then (k, v) :: m' else (k', v') :: oset k v m'
  end.

(** ** Types ([types/index.ts]) *)

Inductive Sex : Type := M | F.

Definition Sex_eqb (a b : Sex) : bool :=
  match a, b with M, M | F, F => true | _, _ => false end.

Inductive RelationshipType : Type :=
| Siblings
| HalfSiblings
| FirstCousins
| SecondCousins
| ThirdCousins
| DoubleFirstCousins
| FirstCousinsOnceRemoved
| Avuncular
| GrandparentGrandchild
| GreatGrandparent
| ParentChild.

Definition RelationshipType_eqb (a b : RelationshipType) : bool :=
  match a, b with
  | Siblings, Siblings | HalfSiblings, HalfSiblings
  | FirstCousins, FirstCousins | SecondCousins, SecondCousins
  | ThirdCousins, ThirdCousins | DoubleFirstCousins, DoubleFirstCousins
  | FirstCousinsOnceRemoved, FirstCousinsOnceRemoved
  | Avuncular, Avuncular | GrandparentGrandchild, GrandparentGrandchild
  | GreatGrandparent, GreatGrandparent | ParentChild, ParentChild => true
  | _, _ => false
  end.

(** The layout fields [x], [y] of the source record are read by the
    renderer only and are left out. *)
Record Person : Type := mkPerson {
  id : string;
  label : string;
  sex : Sex;
  generation : nat;
  motherId : option string;
  fatherId : option string;
  inbreedingCoefficientOf : option Q
}.

Record ParentChildEdge : Type := mkEdge {
  parentId : string;
  childId : string
}.

Record ConsanguinityLink : Type := mkLink {
  link_person1Id : string;
  link_person2Id : string;
  link_relationship : RelationshipType
}.

Record FamilyGraph : Type := mkGraph {
  persons : gmap string Person;
  edges : list ParentChildEdge;
  consanguinityLinks : list ConsanguinityLink
}.

Record AncestorPath : Type := mkPath {
  personIds : list string;
  commonAncestorId : string;
  steps : nat
}.

Record ProbabilityResult : Type := mkResult {
  coefficientOfRelationshipOf : Q;
  geneOverlapProbabilityOf : Q;
  inbreedingCoefficientOfResult : Q;
  xLinkedCoefficientOf : option Q;
  yLinkedCoefficientOf : option Q;
  baselineR : Q;
  deltaFromBaseline : Q
}.

Inductive Generation : Type := Parents | Grandparents | GreatGrandparents.

Record ConsanguinityFactor : Type := mkFactor {
  factor_generation : Generation;
  factor_relationship : RelationshipType
}.

(** ** The coefficient engine ([lib/genetics.ts]) *)

Module Genetics.

Definition BASE_COEFFICIENTS (r : RelationshipType) : Q :=
  match r with
  | ParentChild => 1 # 2
  | Siblings => 1 # 2
  | HalfSiblings => 1 # 4
  | GrandparentGrandchild => 1 # 4
  | Avuncular => 1 # 4
  | FirstCousins => 1 # 8
  | DoubleFirstCousins => 1 # 4
  | FirstCousinsOnceRemoved => 1 # 16
  | GreatGrandparent => 1 # 8
  | SecondCousins => 1 # 32
  | ThirdCousins => 1 # 128
  end.

(** The body of the [for] loop is one step of a left fold over [paths]. *)
Definition coefficientOfRelationship
    (paths : list AncestorPath) (ancestorInbreeding : gmap string Q) : Q :=
  fold_left
    (fun r path =>
       let F_A := js_or (default 0 (ancestorInbreeding !! commonAncestorId path)) 0 in
       let contribution := pow_half (Z.of_nat (steps path)) * (1 + F_A) in
       r + contribution)%Q
    paths 0%Q.

Definition inbreedingCoefficient
    (paths : list AncestorPath) (ancestorInbreeding : gmap string Q) : Q :=
  fold_left
    (fun f path =>
       let F_A := js_or (default 0 (ancestorInbreeding !! commonAncestorId path)) 0 in
       let contribution := pow_half (Z.of_nat (steps path) + 1) * (1 + F_A) in
       f + contribution)%Q
    paths 0%Q.

Definition geneOverlapProbability (r : Q) : Q := r.

(** The table is keyed by the relationship and by the pair of sexes
    (the source builds the key [sex1-sex2]); a miss is [null]. *)
Definition xLinkedTable (r : RelationshipType) (s1 s2 : Sex) : option Q :=
  match r, s1, s2 with
  | ParentChild, M, M => Some 0
  | ParentChild, M, F => Some 1
  | ParentChild, F, M => Some (1 # 2)
  | ParentChild, F, F => Some (1 # 2)
  | Siblings, _, _ => Some (1 # 2)
  | HalfSiblings, _, _ => Some (1 # 2)
  | GrandparentGrandchild, M, _ => Some 0
  | GrandparentGrandchild, F, _ => Some (1 # 4)
  | Avuncular, _, _ => Some (1 # 4)
  | FirstCousins, _, _ => Some (1 # 8)
  | DoubleFirstCousins, _, _ => Some (1 # 4)
  | FirstCousinsOnceRemoved, _, _ => Some (1 # 16)
  | GreatGrandparent, M, _ => Some 0
  | GreatGrandparent, F, _ => Some (1 # 8)
  | SecondCousins, _, _ => Some (1 # 32)
  | ThirdCousins, _, _ => Some (1 # 128)
  end%Q.

Definition xLinkedCoefficient
    (person1 person2 : Person) (relationship : RelationshipType) : option Q :=
  xLinkedTable relationship (sex person1) (sex person2).

Definition patrilinealRelationships : list RelationshipType :=
  [ParentChild; Siblings; GrandparentGrandchild; Avuncular; FirstCousins].

Definition includes (l : list RelationshipType) (r : RelationshipType) : bool :=
  existsb (RelationshipType_eqb r) l.

Definition yLinkedCoefficient
    (person1 person2 : Person) (relationship : RelationshipType) : option Q :=
  if negb (Sex_eqb (sex person1) M) || negb (Sex_eqb (sex person2) M)
  then Some 0%Q
  else if includes patrilinealRelationships relationship
  then Some 1%Q
  else if RelationshipType_eqb relationship HalfSiblings
  then Some 0%Q
  else Some 0%Q.

Definition calculateProbabilities
    (person1 person2 : Person) (relationship : RelationshipType)
    (consanguinityFactor : Q) : ProbabilityResult :=
  let baseR := BASE_COEFFICIENTS relationship in
  let adjustedR := (baseR * (1 + consanguinityFactor))%Q in
  let F := (adjustedR / 2)%Q in
  let xLinked := xLinkedCoefficient person1 person2 relationship in
  let yLinked := yLinkedCoefficient person1 person2 relationship in
  {| coefficientOfRelationshipOf := adjustedR;
     geneOverlapProbabilityOf := geneOverlapProbability adjustedR;
     inbreedingCoefficientOfResult := F;
     xLinkedCoefficientOf := xLinked;
     yLinkedCoefficientOf := yLinked;
     baselineR := baseR;
     deltaFromBaseline := (adjustedR - baseR)%Q |}.

(** [parentRelationship] may be [null]. *)
Definition getConsanguinityFactor (parentRelationship : option RelationshipType) : Q :=
  match parentRelationship with
  | None => 0
  | Some rel =>
      let parentR := js_or (BASE_COEFFICIENTS rel) 0 in
      parentR / 2
  end%Q.

Definition GENERATION_MULTIPLIERS (g : Generation) : Q :=
  match g with
  | Parents => 1
  | Grandparents => 1 # 2
  | GreatGrandparents => 1 # 4
  end%Q.

Definition getCompoundConsanguinityFactor (factors : list ConsanguinityFactor) : Q :=
  fold_left
    (fun totalFactor factor =>
       let baseF := getConsanguinityFactor (Some (factor_relationship factor)) in
       let multiplier := js_or (GENERATION_MULTIPLIERS (factor_generation factor)) 1 in
       totalFactor + baseF * multiplier)%Q
    factors 0%Q.

(** *** The ancestor-path finder *)

(** A [for] loop whose body may fail to return. *)
Fixpoint for_each {S A} (body : S -> A -> option S) (l : list A) (s : S) : option S :=
  match l with
  | [] => Some s
  | a :: l' => match body s a with Some s' => for_each body l' s' | None => None end
  end.

(** [[motherId, fatherId].filter(Boolean)]: [undefined] and the empty
    string are dropped. *)
Definition filterBoolean (ids : list (option string)) : list string :=
  flat_map (fun o => match o with
                     | Some s => if truthy s then [s] else []
                     | None => []
                     end) ids.

(** [getAllAncestors]: the [visited] set is one object shared by all the
    recursive calls, so it is threaded through and returned.  [fuel]
    bounds the depth of the recursion. *)
Fixpoint getAllAncestors (fuel : nat) (personId : string) (graph : FamilyGraph)
    (visited : gset string) : option (omap (list string) * gset string) :=
  match fuel with
  | O => None
  | S fuel' =>
      if decide (personId ∈ visited) then Some ([], visited)
      else
        let visited := {[personId]} ∪ visited in
        match persons graph !! personId with
        | None => Some ([], visited)
        | Some person =>
            let parentIds := filterBoolean [motherId person; fatherId person] in
            for_each
              (fun '(ancestors, visited) parentId =>
                 let ancestors := oset parentId [personId] ancestors in
                 match getAllAncestors fuel' parentId graph visited with
                 | None => None
                 | Some (grandAncestors, visited) =>
                     Some (fold_left
                             (fun ancestors '(grandId, path) =>
                                oset grandId (personId :: path) ancestors)
                             grandAncestors ancestors,
                           visited)
                 end)
              parentIds ([], visited)
        end
  end.

(** [findAncestorPaths]: each of the two traversals starts from a fresh
    [visited] set.  [path2.reverse()] reverses an array that no other
    entry shares and that is read once, so it is the pure [rev]. *)
Definition findAncestorPaths (fuel : nat) (person1Id person2Id : string)
    (graph : FamilyGraph) : option (list AncestorPath) :=
  match getAllAncestors fuel person1Id graph ∅ with
  | None => None
  | Some (ancestors1, _) =>
      match getAllAncestors fuel person2Id graph ∅ with
      | None => None
      | Some (ancestors2, _) =>
          Some (fold_left
                  (fun paths '(ancestorId, path1) =>
                     match oget ancestorId ancestors2 with
                     | Some path2 =>
                         paths ++ [ {| personIds := path1 ++ ancestorId :: rev path2;
                                       commonAncestorId := ancestorId;
                                       steps := length path1 + length path2 |} ]
                     | None => paths
                     end)
                  ancestors1 [])
      end
  end.

End Genetics.

(** ** Static template graphs ([lib/pedigree-templates.ts]) *)

Module Templates.

Definition createPerson (id label : string) (sex : Sex) (generation : nat)
    (motherId fatherId : option string) : Person :=
  {| id := id; label := label; sex := sex; generation := generation;
     motherId := motherId; fatherId := fatherId;
     inbreedingCoefficientOf := None |}.

(** A sequence of [persons.set(id, person)] calls on a new [Map]. *)
Definition setAll (l : list (string * Person)) : gmap string Person :=
  fold_left (fun m kv => <[kv.1 := kv.2]> m) l ∅.

Definition createSiblingPedigree : FamilyGraph :=
  {| persons := setAll
       [ ("gf1", createPerson "gf1" "Grandfather 1" M 0 None None);
         ("gm1", createPerson "gm1" "Grandmother 1" F 0 None None);
         ("gf2", createPerson "gf2" "Grandfather 2" M 0 None None);
         ("gm2", createPerson "gm2" "Grandmother 2" F 0 None None);
         ("father", createPerson "father" "Father" M 1 (Some "gm1") (Some "gf1"));
         ("mother", createPerson "mother" "Mother" F 1 (Some "gm2") (Some "gf2"));
         ("child1", createPerson "child1" "Sibling A" M 2 (Some "mother") (Some "father"));
         ("child2", createPerson "child2" "Sibling B" F 2 (Some "mother") (Some "father")) ];
     edges :=
       [ mkEdge "gf1" "father"; mkEdge "gm1" "father";
         mkEdge "gf2" "mother"; mkEdge "gm2" "mother";
         mkEdge "father" "child1"; mkEdge "mother" "child1";
         mkEdge "father" "child2"; mkEdge "mother" "child2" ];
     consanguinityLinks := [] |}.

Definition createCousinsPedigree : FamilyGraph :=
  {| persons := setAll
       [ ("gf", createPerson "gf" "Grandfather" M 0 None None);
         ("gm", createPerson "gm" "Grandmother" F 0 None None);
         ("parent1", createPerson "parent1" "Parent 1" M 1 (Some "gm") (Some "gf"));
         ("parent2", createPerson "parent2" "Parent 2" M 1 (Some "gm") (Some "gf"));
         ("spouse1", createPerson "spouse1" "Spouse 1" F 1 None None);
         ("spouse2", createPerson "spouse2" "Spouse 2" F 1 None None);
         ("cousin1", createPerson "cousin1" "Cousin A" M 2 (Some "spouse1") (Some "parent1"));
         ("cousin2", createPerson "cousin2" "Cousin B" F 2 (Some "spouse2") (Some "parent2")) ];
     edges :=
       [ mkEdge "gf" "parent1"; mkEdge "gm" "parent1";
         mkEdge "gf" "parent2"; mkEdge "gm" "parent2";
         mkEdge "parent1" "cousin1"; mkEdge "spouse1" "cousin1";
         mkEdge "parent2" "cousin2"; mkEdge "spouse2" "cousin2" ];
     consanguinityLinks := [] |}.

Definition getPedigreeForRelationship (relationship : RelationshipType) : FamilyGraph :=
  match relationship with
  | Siblings | HalfSiblings => createSiblingPedigree
  | FirstCousins | DoubleFirstCousins | SecondCousins | ThirdCousins
  | FirstCousinsOnceRemoved => createCousinsPedigree
  | _ => createSiblingPedigree
  end.

Definition getSelectedPairIds (relationship : RelationshipType) : string * string :=
  match relationship with
  | Siblings | HalfSiblings => ("child1", "child2")
  | FirstCousins | DoubleFirstCousins | SecondCousins | ThirdCousins
  | FirstCousinsOnceRemoved => ("cousin1", "cousin2")
  | _ => ("child1", "child2")
  end.

(** The path-based flow on a template: the paths between the selected
    pair, then [coefficientOfRelationship] with no inbred ancestor. *)
Definition templatePathR (fuel : nat) (relationship : RelationshipType) : option Q :=
  let '(id1, id2) := getSelectedPairIds relationship in
  match Genetics.findAncestorPaths fuel id1 id2 (getPedigreeForRelationship relationship) with
  | Some paths => Some (Genetics.coefficientOfRelationship paths ∅)
  | None => None
  end.

End Templates.

(** ** The dynamic pedigree ([lib/dynamic-pedigree.ts]) *)

Module Dynamic.

Inductive NodeRelationshipType : Type :=
| DeclSiblings
| DeclHalfSiblings
| DeclSpouse
| DeclFirstCousins
| DeclSecondCousins
| DeclUnrelated.

Record NodeRelationship : Type := mkRel {
  person1Id : string;
  person2Id : string;
  type : NodeRelationshipType
}.

Record DynamicPedigree : Type := mkPedigree {
  ped_persons : gmap string Person;
  ped_edges : list ParentChildEdge;
  definedRelationships : list NodeRelationship;
  targetPair : string * string;
  merges : gmap string string
}.

(** [addPerson(id, label, sex, generation)] of [generateBasePedigree]. *)
Definition addPerson (id label : string) (sex : Sex) (generation : nat)
    : string * Person :=
  (id, {| id := id; label := label; sex := sex; generation := generation;
          motherId := None; fatherId := None; inbreedingCoefficientOf := None |}).

Definition addEdge (parentId childId : string) : ParentChildEdge :=
  {| parentId := parentId; childId := childId |}.

Definition opposite (s : Sex) : Sex := match s with M => F | F => M end.

Definition basePersons (baseRelationship : RelationshipType)
    (person1Sex person2Sex : Sex) : list (string * Person) :=
  match baseRelationship with
  | Siblings | HalfSiblings =>
      [ addPerson "p1" "Sibling A" person1Sex 2;
        addPerson "p2" "Sibling B" person2Sex 2;
        addPerson "father" "Father" M 1;
        addPerson "mother" "Mother" F 1;
        addPerson "gf1" "Grandfather 1" M 0;
        addPerson "gm1" "Grandmother 1" F 0;
        addPerson "gf2" "Grandfather 2" M 0;
        addPerson "gm2" "Grandmother 2" F 0 ]
  | FirstCousins =>
      [ addPerson "p1" "Cousin A" person1Sex 2;
        addPerson "p2" "Cousin B" person2Sex 2;
        addPerson "father1" "Parent A1" M 1;
        addPerson "mother1" "Parent A2" F 1;
        addPerson "father2" "Parent B1" M 1;
        addPerson "mother2" "Parent B2" F 1;
        addPerson "gf-shared" "Shared Grandfather" M 0;
        addPerson "gm-shared" "Shared Grandmother" F 0;
        addPerson "gf-a" "Grandfather A" M 0;
        addPerson "gm-a" "Grandmother A" F 0;
        addPerson "gf-b" "Grandfather B" M 0;
        addPerson "gm-b" "Grandmother B" F 0 ]
  | DoubleFirstCousins =>
      [ addPerson "p1" "Cousin A" person1Sex 2;
        addPerson "p2" "Cousin B" person2Sex 2;
        addPerson "father1" "Father A" M 1;
        addPerson "mother1" "Mother A" F 1;
        addPerson "father2" "Father B" M 1;
        addPerson "mother2" "Mother B" F 1;
        addPerson "gf1" "Grandfather 1" M 0;
        addPerson "gm1" "Grandmother 1" F 0;
        addPerson "gf2" "Grandfather 2" M 0;
        addPerson "gm2" "Grandmother 2" F 0 ]
  | Avuncular =>
      [ addPerson "p1" "Uncle/Aunt" person1Sex 1;
        addPerson "p2" "Nephew/Niece" person2Sex 2;
        addPerson "sibling" "Parent" (opposite person1Sex) 1;
        addPerson "spouse" "Spouse" (opposite person1Sex) 1;
        addPerson "gf" "Grandfather" M 0;
        addPerson "gm" "Grandmother" F 0;
        addPerson "gf-spouse" "Grandfather (in-law)" M 0;
        addPerson "gm-spouse" "Grandmother (in-law)" F 0 ]
  | SecondCousins =>
      [ addPerson "p1" "Cousin A" person1Sex 3;
        addPerson "p2" "Cousin B" person2Sex 3;
        addPerson "parent1" "Parent A" M 2;
        addPerson "parent2" "Parent B" M 2;
        addPerson "gp1" "Grandparent A" M 1;
        addPerson "gp2" "Grandparent B" M 1;
        addPerson "ggp-shared" "Shared Great-GP" M 0 ]
  | _ =>
      [ addPerson "p1" "Person A" person1Sex 2;
        addPerson "p2" "Person B" person2Sex 2;
        addPerson "father" "Father" M 1;
        addPerson "mother" "Mother" F 1 ]
  end.

Definition baseEdges (baseRelationship : RelationshipType) : list ParentChildEdge :=
  match baseRelationship with
  | Siblings | HalfSiblings =>
      [ addEdge "father" "p1"; addEdge "mother" "p1";
        addEdge "father" "p2"; addEdge "mother" "p2";
        addEdge "gf1" "father"; addEdge "gm1" "father";
        addEdge "gf2" "mother"; addEdge "gm2" "mother" ]
  | FirstCousins =>
      [ addEdge "father1" "p1"; addEdge "mother1" "p1";
        addEdge "father2" "p2"; addEdge "mother2" "p2";
        addEdge "gf-shared" "father1"; addEdge "gm-shared" "father1";
        addEdge "gf-shared" "father2"; addEdge "gm-shared" "father2";
        addEdge "gf-a" "mother1"; addEdge "gm-a" "mother1";
        addEdge "gf-b" "mother2"; addEdge "gm-b" "mother2" ]
  | DoubleFirstCousins =>
      [ addEdge "father1" "p1"; addEdge "mother1" "p1";
        addEdge "father2" "p2"; addEdge "mother2" "p2";
        addEdge "gf1" "father1"; addEdge "gm1" "father1";
        addEdge "gf1" "father2"; addEdge "gm1" "father2";
        addEdge "gf2" "mother1"; addEdge "gm2" "mother1";
        addEdge "gf2" "mother2"; addEdge "gm2" "mother2" ]
  | Avuncular =>
      [ addEdge "sibling" "p2"; addEdge "spouse" "p2";
        addEdge "gf" "p1"; addEdge "gm" "p1";
        addEdge "gf" "sibling"; addEdge "gm" "sibling";
        addEdge "gf-spouse" "spouse"; addEdge "gm-spouse" "spouse" ]
  | SecondCousins =>
      [ addEdge "parent1" "p1"; addEdge "parent2" "p2";
        addEdge "gp1" "parent1"; addEdge "gp2" "parent2";
        addEdge "ggp-shared" "gp1"; addEdge "ggp-shared" "gp2" ]
  | _ =>
      [ addEdge "father" "p1"; addEdge "mother" "p1";
        addEdge "father" "p2"; addEdge "mother" "p2" ]
  end.

(** [generateBasePedigree]: every branch of the [switch] runs a sequence
    of [addPerson] and [addEdge] calls, collected here per branch. *)
Definition generateBasePedigree (baseRelationship : RelationshipType)
    (person1Sex person2Sex : Sex) : DynamicPedigree :=
  {| ped_persons := Templates.setAll (basePersons baseRelationship person1Sex person2Sex);
     ped_edges := baseEdges baseRelationship;
     definedRelationships := [];
     targetPair := ("p1", "p2");
     merges := ∅ |}.

(** [resolveId]: the [while] loop follows the merge map; [fuel] is the
    number of iterations it is allowed. *)
Fixpoint resolveId (fuel : nat) (id : string) (merges : gmap string string)
    : option string :=
  match merges !! id with
  | None => Some id
  | Some next =>
      match fuel with
      | O => None
      | S fuel' => resolveId fuel' next merges
      end
  end.

(** The first loop of [findAllPaths]: the child-to-parents adjacency
    over resolved ids. *)
Definition buildParentOf (fuel : nat) (pedigree : DynamicPedigree)
    : option (gmap string (list string)) :=
  Genetics.for_each
    (fun parentOf edge =>
       match resolveId fuel (childId edge) (merges pedigree) with
       | None => None
       | Some resolved =>
           let parentOf :=
             match parentOf !! resolved with
             | None => <[resolved := []]> parentOf
             | Some _ => parentOf
             end in
           match resolveId fuel (parentId edge) (merges pedigree) with
           | None => None
           | Some parent =>
               Some (<[resolved := default [] (parentOf !! resolved) ++ [parent]]> parentOf)
           end
       end)
    (ped_edges pedigree) ∅.

(** The inner [dfs] of [getAncestors]; [ancestors] and [visited] are the
    two objects it closes over. *)
Fixpoint dfs (fuel : nat) (parentOf : gmap string (list string))
    (current : string) (depth : nat) (st : omap nat * gset string)
    : option (omap nat * gset string) :=
  match fuel with
  | O => None
  | S fuel' =>
      let '(ancestors, visited) := st in
      if decide (current ∈ visited) then Some st
      else
        let visited := {[current]} ∪ visited in
        let parents := default [] (parentOf !! current) in
        Genetics.for_each
          (fun '(ancestors, visited) parent =>
             let ancestors :=
               match oget parent ancestors with
               | None => oset parent (depth + 1) ancestors
               | Some d =>
                   if (depth + 1 <? d)%nat then oset parent (depth + 1) ancestors
                   else ancestors
               end in
             dfs fuel' parentOf parent (depth + 1) (ancestors, visited))
          parents (ancestors, visited)
  end.

Definition getAncestors (fuel : nat) (parentOf : gmap string (list string))
    (merges : gmap string string) (id : string) : option (omap nat) :=
  match resolveId fuel id merges with
  | None => None
  | Some start =>
      match dfs fuel parentOf start 0 ([], ∅) with
      | None => None
      | Some (ancestors, _) => Some ancestors
      end
  end.

(** The two last loops of [findAllPaths]: a path is the common ancestor
    repeated [depth1 + depth2 + 1] times. *)
Definition commonPaths (ancestors1 ancestors2 : omap nat) : list (list string) :=
  let commonAncestors :=
    List.filter (fun ancestorId => ohas ancestorId ancestors2) (map fst ancestors1) in
  map (fun ancestor =>
         let depth1 := default 0 (oget ancestor ancestors1) in
         let depth2 := default 0 (oget ancestor ancestors2) in
         let pathLength := depth1 + depth2 + 1 in
         repeat ancestor pathLength)
      commonAncestors.

Definition findAllPaths (fuel : nat) (id1 id2 : string) (pedigree : DynamicPedigree)
    : option (list (list string)) :=
  match buildParentOf fuel pedigree with
  | None => None
  | Some parentOf =>
      match getAncestors fuel parentOf (merges pedigree) id1 with
      | None => None
      | Some ancestors1 =>
          match getAncestors fuel parentOf (merges pedigree) id2 with
          | None => None
          | Some ancestors2 => Some (commonPaths ancestors1 ancestors2)
          end
      end
  end.

Record PedigreeResult : Type := mkPedigreeResult {
  coefficientOfRelationship : Q;
  inbreedingCoefficient : Q;
  contributingPaths : list (list string)
}.

(** The accumulation loop of [calculateFromPedigree]. *)
Definition pathSum (paths : list (list string)) : Q :=
  fold_left
    (fun r path =>
       let contribution := pow_half (Z.of_nat (length path) - 1) in
       r + contribution)%Q
    paths 0%Q.

Definition calculateFromPedigree (fuel : nat) (pedigree : DynamicPedigree)
    : option PedigreeResult :=
  let '(id1, id2) := targetPair pedigree in
  match findAllPaths fuel id1 id2 pedigree with
  | None => None
  | Some paths =>
      let r := pathSum paths in
      Some {| coefficientOfRelationship := Qmin r 1;
              inbreedingCoefficient := (r / 2)%Q;
              contributingPaths := paths |}
  end.

(** *** The relationship editor *)

(** [pedigree.edges.filter(e => e.childId === personId).map(e => e.parentId)] *)
Definition parentsOfPerson (pedigree : DynamicPedigree) (personId : string) : list string :=
  map parentId (List.filter (fun e => String.eqb (childId e) personId) (ped_edges pedigree)).

(** [parents.find(p => pedigree.persons.get(p)?.sex === s)] *)
Definition findParentOfSex (pedigree : DynamicPedigree) (s : Sex) (parents : list string)
    : option string :=
  List.find
    (fun p => match ped_persons pedigree !! p with
              | Some person => Sex_eqb (sex person) s
              | None => false
              end)
    parents.

(** [if (a && b && a !== b) merges.set(b, a)], where [a] and [b] are the
    results of [find]: [undefined] and the empty string are falsy. *)
Definition mergeInto (keeper loser : option string) (merges : gmap string string)
    : gmap string string :=
  match keeper, loser with
  | Some a, Some b =>
      if truthy a && truthy b && negb (String.eqb a b)
      then <[b := a]> merges
      else merges
  | _, _ => merges
  end.

Definition addRelationship (pedigree : DynamicPedigree) (person1Id person2Id : string)
    (relationshipType : NodeRelationshipType) : DynamicPedigree :=
  let newRelationships :=
    definedRelationships pedigree
      ++ [ {| person1Id := person1Id; person2Id := person2Id; type := relationshipType |} ] in
  let parents1 := parentsOfPerson pedigree person1Id in
  let parents2 := parentsOfPerson pedigree person2Id in
  let father1 := findParentOfSex pedigree M parents1 in
  let father2 := findParentOfSex pedigree M parents2 in
  let mother1 := findParentOfSex pedigree F parents1 in
  let mother2 := findParentOfSex pedigree F parents2 in
  let newMerges :=
    match relationshipType with
    | DeclSiblings => mergeInto mother1 mother2 (mergeInto father1 father2 (merges pedigree))
    | DeclHalfSiblings => mergeInto father1 father2 (merges pedigree)
    | _ => merges pedigree
    end in
  {| ped_persons := ped_persons pedigree;
     ped_edges := ped_edges pedigree;
     definedRelationships := newRelationships;
     targetPair := targetPair pedigree;
     merges := newMerges |}.

(** The first loop of [pedigreeToGraph]: the persons that are not keys
    of the merge map. *)
Definition visiblePersons (pedigree : DynamicPedigree) : gmap string Person :=
  filter (fun kv => merges pedigree !! kv.1 = None) (ped_persons pedigree).

(** The second loop: edges over resolved ids, duplicates dropped. *)
Definition resolvedEdges (fuel : nat) (pedigree : DynamicPedigree)
    : option (list ParentChildEdge) :=
  Genetics.for_each
    (fun edges edge =>
       match resolveId fuel (parentId edge) (merges pedigree) with
       | None => None
       | Some parentId' =>
           match resolveId fuel (childId edge) (merges pedigree) with
           | None => None
           | Some childId' =>
               let exists_ :=
                 existsb (fun e => String.eqb (parentId e) parentId'
                                   && String.eqb (childId e) childId') edges in
               Some (if exists_ then edges
                     else edges ++ [ {| parentId := parentId'; childId := childId' |} ])
           end
       end)
    (ped_edges pedigree) [].

Definition linkRelationship (t : NodeRelationshipType) : RelationshipType :=
  match t with
  | DeclFirstCousins => FirstCousins
  | DeclSecondCousins => SecondCousins
  | DeclHalfSiblings => HalfSiblings
  | _ => Siblings
  end.

(** The third loop: one link per declaration that is neither
    [unrelated] nor [spouse]; both ids are resolved first. *)
Definition resolvedLinks (fuel : nat) (pedigree : DynamicPedigree)
    : option (list ConsanguinityLink) :=
  Genetics.for_each
    (fun links rel =>
       match resolveId fuel (person1Id rel) (merges pedigree) with
       | None => None
       | Some id1 =>
           match resolveId fuel (person2Id rel) (merges pedigree) with
           | None => None
           | Some id2 =>
               Some (match type rel with
                     | DeclUnrelated | DeclSpouse => links
                     | t => links ++ [ {| link_person1Id := id1;
                                          link_person2Id := id2;
                                          link_relationship := linkRelationship t |} ]
                     end)
           end
       end)
    (definedRelationships pedigree) [].

Definition pedigreeToGraph (fuel : nat) (pedigree : DynamicPedigree) : option FamilyGraph :=
  match resolvedEdges fuel pedigree with
  | None => None
  | Some edges =>
      match resolvedLinks fuel pedigree with
      | None => None
      | Some links =>
          Some {| persons := visiblePersons pedigree;
                  edges := edges;
                  consanguinityLinks := links |}
      end
  end.

Definition getRelationshipOptions (pedigree : DynamicPedigree) (person1Id person2Id : string)
    : list (NodeRelationshipType * string) :=
  match ped_persons pedigree !! person1Id, ped_persons pedigree !! person2Id with
  | Some p1, Some p2 =>
      if (generation p1 =? generation p2)%nat
      then [ (DeclUnrelated, "Unrelated");
             (DeclSiblings, "Siblings (same parents)");
             (DeclHalfSiblings, "Half-Siblings (one shared parent)");
             (DeclFirstCousins, "1st Cousins");
             (DeclSecondCousins, "2nd Cousins") ]
      else [ (DeclUnrelated, "Unrelated") ]
  | _, _ => []
  end.

End Dynamic.

(** ** The application state ([App.tsx] and the selection state of
    [components/graph/FamilyGraph.tsx]) *)

Module App.

(** The [useState] cells of [App] and the [selectedNodes] cell of
    [InteractiveGraph], as one record; every handler is a function
    from state to state. *)
Record AppState : Type := mkState {
  baseRelationship : RelationshipType;
  person1Sex : Sex;
  person2Sex : Sex;
  pedigree : Dynamic.DynamicPedigree;
  selectedNodes : list string
}.

Definition initialState : AppState :=
  {| baseRelationship := FirstCousins;
     person1Sex := M;
     person2Sex := F;
     pedigree := Dynamic.generateBasePedigree FirstCousins M F;
     selectedNodes := [] |}.

(** [{ ...person, sex }] *)
Definition withSex (person : Person) (s : Sex) : Person :=
  {| id := id person; label := label person; sex := s;
     generation := generation person;
     motherId := motherId person; fatherId := fatherId person;
     inbreedingCoefficientOf := inbreedingCoefficientOf person |}.

(** [{ ...prev, persons: newPersons }] *)
Definition withPersons (prev : Dynamic.DynamicPedigree) (newPersons : gmap string Person)
    : Dynamic.DynamicPedigree :=
  {| Dynamic.ped_persons := newPersons;
     Dynamic.ped_edges := Dynamic.ped_edges prev;
     Dynamic.definedRelationships := Dynamic.definedRelationships prev;
     Dynamic.targetPair := Dynamic.targetPair prev;
     Dynamic.merges := Dynamic.merges prev |}.

(** The updater of [handlePerson1SexChange] and [handlePerson2SexChange],
    for the target id it reads from [prev.targetPair]. *)
Definition setTargetSex (prev : Dynamic.DynamicPedigree) (target : string) (s : Sex)
    : Dynamic.DynamicPedigree :=
  withPersons prev
    match Dynamic.ped_persons prev !! target with
    | Some p => <[target := withSex p s]> (Dynamic.ped_persons prev)
    | None => Dynamic.ped_persons prev
    end.

Definition handleRelationshipChange (st : AppState) (newRelationship : RelationshipType)
    : AppState :=
  {| baseRelationship := newRelationship;
     person1Sex := person1Sex st;
     person2Sex := person2Sex st;
     pedigree := Dynamic.generateBasePedigree newRelationship (person1Sex st) (person2Sex st);
     selectedNodes := selectedNodes st |}.

Definition handlePerson1SexChange (st : AppState) (s : Sex) : AppState :=
  {| baseRelationship := baseRelationship st;
     person1Sex := s;
     person2Sex := person2Sex st;
     pedigree := setTargetSex (pedigree st) (Dynamic.targetPair (pedigree st)).1 s;
     selectedNodes := selectedNodes st |}.

Definition handlePerson2SexChange (st : AppState) (s : Sex) : AppState :=
  {| baseRelationship := baseRelationship st;
     person1Sex := person1Sex st;
     person2Sex := s;
     pedigree := setTargetSex (pedigree st) (Dynamic.targetPair (pedigree st)).2 s;
     selectedNodes := selectedNodes st |}.

(** [handlePersonSexToggle]: the person's sex is flipped, and the
    tracked sex follows when the person is a target (the first target
    is tested first). *)
Definition handlePersonSexToggle (st : AppState) (personId : string) : AppState :=
  let prev := pedigree st in
  match Dynamic.ped_persons prev !! personId with
  | Some person =>
      let newSex := match sex person with M => F | F => M end in
      let newPersons := <[personId := withSex person newSex]> (Dynamic.ped_persons prev) in
      let isFirst := String.eqb personId (Dynamic.targetPair prev).1 in
      let isSecond := String.eqb personId (Dynamic.targetPair prev).2 in
      {| baseRelationship := baseRelationship st;
         person1Sex := if isFirst then newSex else person1Sex st;
         person2Sex := if isFirst then person2Sex st
                       else if isSecond then newSex else person2Sex st;
         pedigree := withPersons prev newPersons;
         selectedNodes := selectedNodes st |}
  | None =>
      {| baseRelationship := baseRelationship st;
         person1Sex := person1Sex st;
         person2Sex := person2Sex st;
         pedigree := withPersons prev (Dynamic.ped_persons prev);
         selectedNodes := selectedNodes st |}
  end.

(** The Reset button. *)
Definition resetRelationships (st : AppState) : AppState :=
  {| baseRelationship := baseRelationship st;
     person1Sex := person1Sex st;
     person2Sex := person2Sex st;
     pedigree := Dynamic.generateBasePedigree (baseRelationship st)
                   (person1Sex st) (person2Sex st);
     selectedNodes := selectedNodes st |}.

(** The updater of [setSelectedNodes] in [handleClick], for a click on
    the node [id] without the shift key. *)
Definition toggleSelection (prev : list string) (id : string) : list string :=
  if existsb (String.eqb id) prev
  then List.filter (fun n => negb (String.eqb n id)) prev
  else match prev with
       | _ :: second :: _ => [second; id]
       | _ => prev ++ [id]
       end.

Definition handleNodeClick (st : AppState) (id : string) : AppState :=
  {| baseRelationship := baseRelationship st;
     person1Sex := person1Sex st;
     person2Sex := person2Sex st;
     pedigree := pedigree st;
     selectedNodes := toggleSelection (selectedNodes st) id |}.

(** A click on empty space. *)
Definition handleEmptyClick (st : AppState) : AppState :=
  {| baseRelationship := baseRelationship st;
     person1Sex := person1Sex st;
     person2Sex := person2Sex st;
     pedigree := pedigree st;
     selectedNodes := [] |}.

(** [handleRelationshipSelect]: nothing happens unless exactly two
    nodes are selected. *)
Definition handleRelationshipSelect (st : AppState) (t : Dynamic.NodeRelationshipType)
    : AppState :=
  match selectedNodes st with
  | [first; second] =>
      {| baseRelationship := baseRelationship st;
         person1Sex := person1Sex st;
         person2Sex := person2Sex st;
         pedigree := Dynamic.addRelationship (pedigree st) first second t;
         selectedNodes := [] |}
  | _ => st
  end.

(** The [probabilityResult] memo of [App]. *)
Definition probabilityResult (fuel : nat) (st : AppState) : option ProbabilityResult :=
  match Dynamic.calculateFromPedigree fuel (pedigree st) with
  | None => None
  | Some result =>
      let baseR := js_or (Genetics.BASE_COEFFICIENTS (baseRelationship st)) (1 # 8) in
      let p1 := Dynamic.ped_persons (pedigree st) !! (Dynamic.targetPair (pedigree st)).1 in
      let p2 := Dynamic.ped_persons (pedigree st) !! (Dynamic.targetPair (pedigree st)).2 in
      let '(xLinked, yLinked) :=
        match p1, p2 with
        | Some p1, Some p2 =>
            (Genetics.xLinkedCoefficient p1 p2 (baseRelationship st),
             Genetics.yLinkedCoefficient p1 p2 (baseRelationship st))
        | _, _ => (None, None)
        end in
      Some {| coefficientOfRelationshipOf := Dynamic.coefficientOfRelationship result;
              geneOverlapProbabilityOf := Dynamic.coefficientOfRelationship result;
              inbreedingCoefficientOfResult := Dynamic.inbreedingCoefficient result;
              xLinkedCoefficientOf := xLinked;
              yLinkedCoefficientOf := yLinked;
              baselineR := baseR;
              deltaFromBaseline := (Dynamic.coefficientOfRelationship result - baseR)%Q |}
  end.

(** What the user can do. *)
Inductive Event : Type :=
| RelationshipChange (newRelationship : RelationshipType)
| Person1SexChange (s : Sex)
| Person2SexChange (s : Sex)
| PersonSexToggle (personId : string)
| ResetRelationships
| NodeClick (id : string)
| EmptyClick
| RelationshipSelect (t : Dynamic.NodeRelationshipType).

Definition handle (st : AppState) (e : Event) : AppState :=
  match e with
  | RelationshipChange r => handleRelationshipChange st r
  | Person1SexChange s => handlePerson1SexChange st s
  | Person2SexChange s => handlePerson2SexChange st s
  | PersonSexToggle personId => handlePersonSexToggle st personId
  | ResetRelationships => resetRelationships st
  | NodeClick id => handleNodeClick st id
  | EmptyClick => handleEmptyClick st
  | RelationshipSelect t => handleRelationshipSelect st t
  end.

Definition run (events : list Event) (st : AppState) : AppState :=
  fold_left handle events st.

End App.



(** ** Notions used to state the properties *)

(** One hop of the merge map. *)
Definition mergeStep (merges : gmap string string) (a b : string) : Prop :=
  merges !! a = Some b.

(** [b] is met when the merge map is followed from [a]. *)
Definition reaches (merges : gmap string string) (a b : string) : Prop :=
  rtc (mergeStep merges) a b.

(** No id maps back to itself by repeatedly following the map. *)
Definition acyclic (merges : gmap string string) : Prop :=
  forall id, ~ tc (mergeStep merges) id id.

(** The executable test: every key resolves within [size merges] hops. *)
Definition acyclicb (merges : gmap string string) : bool :=
  forallb
    (fun kv => match Dynamic.resolveId (size merges) kv.1 merges with
               | Some _ => true
               | None => false
               end)
    (map_to_list merges).

(** [parent] is listed as a parent of [child] in the adjacency. *)
Definition parentEdge (parentOf : gmap string (list string)) (child parent : string) : Prop :=
  parent ∈ default [] (parentOf !! child).

(** An upward path of exactly [n] parent-child edges. *)
Definition upwardPath (parentOf : gmap string (list string)) (n : nat)
    (from to : string) : Prop :=
  nsteps (parentEdge parentOf) n from to.

(** The sum of a list of numbers, to state what the accumulation loops
    compute. *)
Definition Qsum (l : list Q) : Q := fold_right Qplus 0%Q l.

(** What one path adds to the coefficient of relationship (the body of
    the loop of [coefficientOfRelationship]). *)
Definition pathContribution (ancestorInbreeding : gmap string Q) (path : AncestorPath) : Q :=
  (pow_half (Z.of_nat (steps path))
   * (1 + js_or (default 0 (ancestorInbreeding !! commonAncestorId path)) 0))%Q.

(** What one factor adds to the compound consanguinity factor. *)
Definition factorContribution (factor : ConsanguinityFactor) : Q :=
  (Genetics.BASE_COEFFICIENTS (factor_relationship factor) / 2
   * Genetics.GENERATION_MULTIPLIERS (factor_generation factor))%Q.

(** A declaration applied to a pedigree, and a sequence of them. *)
Definition declare (pedigree : Dynamic.DynamicPedigree) (decl : Dynamic.NodeRelationship)
    : Dynamic.DynamicPedigree :=
  Dynamic.addRelationship pedigree
    (Dynamic.person1Id decl) (Dynamic.person2Id decl) (Dynamic.type decl).

Definition declareAll (pedigree : Dynamic.DynamicPedigree)
    (decls : list Dynamic.NodeRelationship) : Dynamic.DynamicPedigree :=
  fold_left declare decls pedigree.

(** The declarations that merge parents. *)
Definition mergesParents (t : Dynamic.NodeRelationshipType) : bool :=
  match t with
  | Dynamic.DeclSiblings | Dynamic.DeclHalfSiblings => true
  | _ => false
  end.

(** The declarations that are drawn as a consanguinity link. *)
Definition drawsLink (decl : Dynamic.NodeRelationship) : bool :=
  match Dynamic.type decl with
  | Dynamic.DeclUnrelated | Dynamic.DeclSpouse => false
  | _ => true
  end.

#[global] Instance ParentChildEdge_eq_dec : EqDecision ParentChildEdge.
Proof. solve_decision. Defined.

(** The number of parents of [child] that are persons of sex [s]. *)
Definition parentsOfSex (pedigree : Dynamic.DynamicPedigree) (s : Sex) (child : string) : nat :=
  length
    (List.filter
       (fun p => match Dynamic.ped_persons pedigree !! p with
                 | Some person => Sex_eqb (sex person) s
                 | None => false
                 end)
       (Dynamic.parentsOfPerson pedigree child)).

(** The back-references of [person], stored under [key], agree with
    the graph: the mother is a female person and the father a male
    person of the graph, and each is joined to [key] by an edge. *)
Definition backReferencesAgree (graph : FamilyGraph) (key : string) (person : Person) : Prop :=
  id person = key /\
  (forall p, motherId person = Some p ->
             sex <$> persons graph !! p = Some F /\ In (mkEdge p key) (edges graph)) /\
  (forall p, fatherId person = Some p ->
             sex <$> persons graph !! p = Some M /\ In (mkEdge p key) (edges graph)).

(** The edge [e] is recorded as a back-reference of its child. *)
Definition edgeHasBackReference (graph : FamilyGraph) (e : ParentChildEdge) : Prop :=
  exists child, persons graph !! childId e = Some child /\
                (motherId child = Some (parentId e) \/ fatherId child = Some (parentId e)).

(** An entry of the ancestor map: a positive depth that is the length
    of an upward path from [start]. *)
Definition realDepth (parentOf : gmap string (list string)) (start : string)
    (kv : string * nat) : Prop :=
  1 <= kv.2 /\ upwardPath parentOf kv.2 start kv.1.

(** The pedigree with its two targets exchanged. *)
Definition swapTargets (pedigree : Dynamic.DynamicPedigree) : Dynamic.DynamicPedigree :=
  {| Dynamic.ped_persons := Dynamic.ped_persons pedigree;
     Dynamic.ped_edges := Dynamic.ped_edges pedigree;
     Dynamic.definedRelationships := Dynamic.definedRelationships pedigree;
     Dynamic.targetPair := ((Dynamic.targetPair pedigree).2, (Dynamic.targetPair pedigree).1);
     Dynamic.merges := Dynamic.merges pedigree |}.

(** What every reachable state of the application satisfies. *)
Definition appInvariant (st : App.AppState) : Prop :=
  Dynamic.targetPair (App.pedigree st) = ("p1", "p2") /\
  sex <$> Dynamic.ped_persons (App.pedigree st) !! "p1" = Some (App.person1Sex st) /\
  sex <$> Dynamic.ped_persons (App.pedigree st) !! "p2" = Some (App.person2Sex st) /\
  Dynamic.ped_edges (App.pedigree st) = Dynamic.baseEdges (App.baseRelationship st) /\
  length (App.selectedNodes st) <= 2 /\ NoDup (App.selectedNodes st) /\
  Forall (fun decl => Dynamic.person1Id decl <> Dynamic.person2Id decl)
         (Dynamic.definedRelationships (App.pedigree st)).

(** The merge chain from [id] ends: it leads to an id that is no key
    of the map. *)
Definition chainEnds (merges : gmap string string) (id : string) : Prop :=
  exists r, reaches merges id r /\ merges !! r = None.


(** The uncapped path sum: every path of [n] ids adds 1/2^(n-1). *)
Definition rawPathSum (paths : list (list string)) : Q :=
  Qsum (map (fun path => pow_half (Z.of_nat (length path) - 1)) paths).

(** The inputs on which the two coefficient loops are exact in
    binary64: at most 1024 paths of at most 30 steps each, and ancestor
    inbreeding coefficients between 0 and 1 that are multiples of
    1/1024.  Every term of the loops is then a multiple of 2^-41 that
    is at most 2, and every partial sum is at most 2^11, so no
    addition or multiplication rounds and [Math.pow] does not
    underflow: the rational that the model returns is the double that
    the source returns. *)
Definition exactInputs (paths : list AncestorPath) (ancestorInbreeding : gmap string Q)
    : Prop :=
  length paths <= 1024 /\
  Forall (fun path => steps path <= 30) paths /\
  map_Forall (fun _ F_A => (0 <= F_A <= 1)%Q /\ exists k : Z, (F_A == k # 1024)%Q)
             ancestorInbreeding.

(** The path lists on which the accumulation of [calculateFromPedigree]
    is exact in binary64: at most 4096 paths of at most 40 ids each.
    Every term is then a multiple of 2^-39 that is at most 2, and every
    partial sum is at most 2^13, so no addition rounds. *)
Definition exactPathList (paths : list (list string)) : Prop :=
  length paths <= 4096 /\ Forall (fun path => length path <= 40) paths.

(** ** Example data *)

(** A chain of two merges, and the map with the cycle [a -> b -> a]. *)
Definition chainMap : gmap string string := <["a" := "b"]> (<["b" := "c"]> ∅).
Definition cycleMap : gmap string string := <["a" := "b"]> (<["b" := "a"]> ∅).

(** A map with the cycle [a -> b -> a] and, apart from it, the entry
    [c -> d]. *)
Definition mixedMap : gmap string string :=
  <["a" := "b"]> (<["b" := "a"]> (<["c" := "d"]> ∅)).

(** The first-cousins base pedigree with the default sexes. *)
Definition cousinsBase : Dynamic.DynamicPedigree :=
  Dynamic.generateBasePedigree FirstCousins M F.

(** A pedigree with an inbred line: the child's father is also the
    father of the child's mother, and has a father of his own. *)
Definition inbredPedigree : Dynamic.DynamicPedigree :=
  {| Dynamic.ped_persons := Templates.setAll
       [ Dynamic.addPerson "child" "Child" F 3;
         Dynamic.addPerson "mother" "Mother" F 2;
         Dynamic.addPerson "father" "Father" M 1;
         Dynamic.addPerson "grandfather" "Grandfather" M 0 ];
     Dynamic.ped_edges :=
       [ Dynamic.addEdge "mother" "child"; Dynamic.addEdge "father" "child";
         Dynamic.addEdge "father" "mother"; Dynamic.addEdge "grandfather" "father" ];
     Dynamic.definedRelationships := [];
     Dynamic.targetPair := ("child", "mother");
     Dynamic.merges := ∅ |}.

(** The same family as a [FamilyGraph] with back-references. *)
Definition inbredGraph : FamilyGraph :=
  {| persons := Templates.setAll
       [ ("grandfather", Templates.createPerson "grandfather" "Grandfather" M 0 None None);
         ("father", Templates.createPerson "father" "Father" M 1 None (Some "grandfather"));
         ("mother", Templates.createPerson "mother" "Mother" F 2 None (Some "father"));
         ("child", Templates.createPerson "child" "Child" F 3 (Some "mother") (Some "father")) ];
     edges :=
       [ mkEdge "grandfather" "father"; mkEdge "father" "mother";
         mkEdge "mother" "child"; mkEdge "father" "child" ];
     consanguinityLinks := [] |}.

(** Two targets that share five listed parents (the edge list does not
    limit the number of parents of a child). *)
Definition fiveParents : Dynamic.DynamicPedigree :=
  {| Dynamic.ped_persons := Templates.setAll
       [ Dynamic.addPerson "p1" "Person A" M 1;
         Dynamic.addPerson "p2" "Person B" F 1;
         Dynamic.addPerson "a" "Parent 1" M 0;
         Dynamic.addPerson "b" "Parent 2" F 0;
         Dynamic.addPerson "c" "Parent 3" M 0;
         Dynamic.addPerson "d" "Parent 4" F 0;
         Dynamic.addPerson "e" "Parent 5" M 0 ];
     Dynamic.ped_edges :=
       flat_map (fun parent => [ Dynamic.addEdge parent "p1"; Dynamic.addEdge parent "p2" ])
                [ "a"; "b"; "c"; "d"; "e" ];
     Dynamic.definedRelationships := [];
     Dynamic.targetPair := ("p1", "p2");
     Dynamic.merges := ∅ |}.



(** * Sums of rationals *)

Section Sums.

Local Open Scope Q_scope.
Context {A : Type}.

(** An accumulation loop adds the sum of the contributions to the
    value it starts from. *)
Lemma fold_sum (f : A -> Q) (l : list A) : forall acc,
  fold_left (fun r x => r + f x) l acc == acc + Qsum (map f l).
Proof.
  induction l as [|x l IH]; intros acc; simpl.
  - ring.
  - rewrite IH. ring.
Qed.

Lemma Qsum_app (l1 l2 : list Q) : Qsum (l1 ++ l2) == Qsum l1 + Qsum l2.
Proof.
  induction l1 as [|x l1 IH]; simpl; [ring|]. rewrite IH. ring.
Qed.

Lemma Qsum_perm (l1 l2 : list Q) : Permutation l1 l2 -> Qsum l1 == Qsum l2.
Proof.
  induction 1 as [|x l l' _ IH|x y l|l l' l'' _ IH1 _ IH2]; simpl.
  - reflexivity.
  - rewrite IH. reflexivity.
  - ring.
  - rewrite IH1. exact IH2.
Qed.

Lemma Qsum_map_ext (f g : A -> Q) (l : list A) :
  (forall x, f x == g x) -> Qsum (map f l) == Qsum (map g l).
Proof.
  intros H. induction l as [|x l IH]; simpl; [reflexivity|].
  rewrite IH, H. reflexivity.
Qed.

Lemma Qsum_map_scale (c : Q) (f : A -> Q) (l : list A) :
  Qsum (map (fun x => f x * c) l) == Qsum (map f l) * c.
Proof.
  induction l as [|x l IH]; simpl; [ring|]. rewrite IH. ring.
Qed.

Lemma Qsum_map_bounds (lo hi : Q) (f : A -> Q) (l : list A) :
  (forall x, In x l -> lo <= f x <= hi) ->
  lo * inject_Z (Z.of_nat (length l)) <= Qsum (map f l)
  <= hi * inject_Z (Z.of_nat (length l)).
Proof.
  induction l as [|x l IH]; intros H.
  - simpl. split; ring_simplify; apply Qle_refl.
  - assert (lo <= f x <= hi) as [Hlo Hhi] by (apply H; left; reflexivity).
    destruct IH as [IHlo IHhi]; [intros y Hy; apply H; right; exact Hy|].
    assert (inject_Z (Z.of_nat (length (x :: l)))
            == 1 + inject_Z (Z.of_nat (length l))) as ->.
    { simpl length. rewrite Nat2Z.inj_succ, <- Z.add_1_l, inject_Z_plus.
      reflexivity. }
    simpl Qsum. simpl map. simpl fold_right. split.
    + assert (lo * (1 + inject_Z (Z.of_nat (length l)))
              == lo + lo * inject_Z (Z.of_nat (length l))) as -> by ring.
      apply Qplus_le_compat; assumption.
    + assert (hi * (1 + inject_Z (Z.of_nat (length l)))
              == hi + hi * inject_Z (Z.of_nat (length l))) as -> by ring.
      apply Qplus_le_compat; assumption.
Qed.

End Sums.

(** * Properties of the coefficient engine *)

Section ScalarFlow.

Import Genetics.
Local Open Scope Q_scope.

Lemma js_or_nonzero (x d : Q) : ~ x == 0 -> js_or x d = x.
Proof.
  intros Hx. unfold js_or.
  destruct (Qeq_bool x 0) eqn:E; [|reflexivity].
  apply Qeq_bool_iff in E. contradiction.
Qed.

(** C4: the siblings archetype with the one factor (first-cousins at
    the parents tier) has consanguinity factor 0.0625, and
    [calculateProbabilities] returns r = 0.53125, F = 0.265625,
    baseline 0.5 and delta 0.03125, whatever the two persons are. *)
Theorem C4_siblings_with_cousin_parents (person1 person2 : Person) :
  let factor := getCompoundConsanguinityFactor
                  [ {| factor_generation := Parents;
                       factor_relationship := FirstCousins |} ] in
  let result := calculateProbabilities person1 person2 Siblings factor in
  getConsanguinityFactor (Some FirstCousins) == 0.0625 /\
  factor == 0.0625 /\
  coefficientOfRelationshipOf result == 0.53125 /\
  inbreedingCoefficientOfResult result == 0.265625 /\
  baselineR result == 0.5 /\
  deltaFromBaseline result == 0.03125.
Proof.
  cbv zeta. repeat split; vm_compute; reflexivity.
Qed.

(** The contribution of one factor, as the loop body computes it. *)
Lemma compound_single (f : ConsanguinityFactor) :
  getCompoundConsanguinityFactor [f] ==
  BASE_COEFFICIENTS (factor_relationship f) / 2
    * GENERATION_MULTIPLIERS (factor_generation f).
Proof.
  destruct f as [g r]. destruct g, r; vm_compute; reflexivity.
Qed.

(** C6: two identical factors give twice the total of one of them, at
    every tier and for every relationship, and a factor at the
    great-grandparents tier gives a quarter of what the same
    relationship gives at the parents tier. *)
Theorem C6_compound_additive_and_tier_scaled
    (relationship : RelationshipType) (tier : Generation) :
  let f := {| factor_generation := tier; factor_relationship := relationship |} in
  getCompoundConsanguinityFactor [f; f] == 2 * getCompoundConsanguinityFactor [f] /\
  getCompoundConsanguinityFactor
    [ {| factor_generation := GreatGrandparents; factor_relationship := relationship |} ]
  == (1 # 4) * getCompoundConsanguinityFactor
                 [ {| factor_generation := Parents; factor_relationship := relationship |} ].
Proof.
  cbv zeta. destruct relationship, tier; split; vm_compute; reflexivity.
Qed.

(** C9: when either person is not male, [yLinkedCoefficient] returns
    the number 0 (not [null]), for every relationship type. *)
Theorem C9_yLinked_zero_unless_both_male
    (person1 person2 : Person) (relationship : RelationshipType) :
  sex person1 <> M \/ sex person2 <> M ->
  yLinkedCoefficient person1 person2 relationship = Some 0.
Proof.
  intros H. unfold yLinkedCoefficient.
  destruct (sex person1), (sex person2); simpl; try reflexivity.
  destruct H as [H | H]; contradiction.
Qed.

Lemma C9_witness :
  yLinkedCoefficient
    (Templates.createPerson "a" "A" M 0 None None)
    (Templates.createPerson "b" "B" F 0 None None)
    Siblings = Some 0.
Proof.
  apply C9_yLinked_zero_unless_both_male. right. simpl. discriminate.
Defined.

(** In particular a female on either side gives 0. *)
Corollary yLinked_zero_if_female
    (person1 person2 : Person) (relationship : RelationshipType) :
  sex person1 = F \/ sex person2 = F ->
  yLinkedCoefficient person1 person2 relationship = Some 0.
Proof.
  intros [H | H]; unfold yLinkedCoefficient; rewrite H; simpl;
    [reflexivity | destruct (sex person1); reflexivity].
Qed.

End ScalarFlow.

(** * Loops that may not return *)

Section ForEach.

Import Genetics.
Context {St A : Type}.

(** A loop whose body always returns and keeps an invariant returns
    and establishes the invariant. *)
Lemma for_each_invariant (I : St -> Prop) (body : St -> A -> option St) (l : list A) :
  (forall s a, I s -> a ∈ l -> exists s', body s a = Some s' /\ I s') ->
  forall s, I s -> exists s', for_each body l s = Some s' /\ I s'.
Proof.
  induction l as [|a l IH]; intros Hbody s Hs; simpl.
  - eauto.
  - destruct (Hbody s a Hs) as (s1 & -> & Hs1); [left|].
    apply IH; [|exact Hs1].
    intros s2 b Hs2 Hb. apply Hbody; [exact Hs2 | right; exact Hb].
Qed.

(** A body that returns the same result wherever the first returns
    gives the same loop result. *)
Lemma for_each_mono (body1 body2 : St -> A -> option St) (l : list A) :
  (forall s a s', body1 s a = Some s' -> body2 s a = Some s') ->
  forall s r, for_each body1 l s = Some r -> for_each body2 l s = Some r.
Proof.
  intros Hb. induction l as [|a l IH]; intros s r; simpl; [tauto|].
  destruct (body1 s a) as [s1|] eqn:E1; [|discriminate].
  rewrite (Hb _ _ _ E1). apply IH.
Qed.

(** A body that fails on the first element fails the loop. *)
Lemma for_each_head_None (body : St -> A -> option St) (a : A) (l : list A) (s : St) :
  body s a = None -> for_each body (a :: l) s = None.
Proof. intros H. simpl. rewrite H. reflexivity. Qed.


End ForEach.

(** * The merge map *)

Section MergeMap.

Import Dynamic.
Implicit Types (merges : gmap string string) (id r : string).

Lemma resolveId_unmapped merges id fuel :
  merges !! id = None -> resolveId fuel id merges = Some id.
Proof. intros H. destruct fuel; simpl; rewrite H; reflexivity. Qed.

Lemma resolveId_mapped merges id next fuel :
  merges !! id = Some next ->
  resolveId (S fuel) id merges = resolveId fuel next merges.
Proof. intros H. simpl. rewrite H. reflexivity. Qed.

(** What a returned id is: the end of the chain, not itself a key. *)
Lemma resolveId_sound merges fuel : forall id r,
  resolveId fuel id merges = Some r -> reaches merges id r /\ merges !! r = None.
Proof.
  induction fuel as [|fuel IH]; intros id r; simpl;
    destruct (merges !! id) as [next|] eqn:E; try discriminate.
  - intros [= <-]. split; [apply rtc_refl | exact E].
  - intros H. destruct (IH _ _ H) as [Hr Hn]. split; [|exact Hn].
    eapply rtc_l; [exact E | exact Hr].
  - intros [= <-]. split; [apply rtc_refl | exact E].
Qed.

(** More fuel does not change a result. *)
Lemma resolveId_mono merges fuel : forall fuel' id r,
  fuel <= fuel' ->
  resolveId fuel id merges = Some r -> resolveId fuel' id merges = Some r.
Proof.
  induction fuel as [|fuel IH]; intros fuel' id r Hle; simpl;
    destruct (merges !! id) as [next|] eqn:E; try discriminate.
  - intros [= <-]. apply resolveId_unmapped, E.
  - destruct fuel' as [|fuel']; [lia|].
    rewrite (resolveId_mapped _ _ _ _ E). apply IH. lia.
  - intros [= <-]. apply resolveId_unmapped, E.
Qed.

Lemma resolveId_deterministic merges fuel1 fuel2 id r1 r2 :
  resolveId fuel1 id merges = Some r1 ->
  resolveId fuel2 id merges = Some r2 -> r1 = r2.
Proof.
  intros H1 H2.
  apply (resolveId_mono _ _ (fuel1 + fuel2)) in H1; [|lia].
  apply (resolveId_mono _ _ (fuel1 + fuel2)) in H2; [|lia].
  congruence.
Qed.

(** The merge map is a function, so everything met from an id that
    lies on a cycle lies on a cycle too. *)
Lemma cycle_propagates merges id r :
  reaches merges id r -> tc (mergeStep merges) id id -> tc (mergeStep merges) r r.
Proof.
  induction 1 as [x | x y z Hxy Hyz IH]; [tauto|].
  intros Hc. apply IH.
  apply tc_rtc_l with x; [|apply tc_once, Hxy].
  clear IH Hyz.
  inversion Hc as [a b Hxy' | a b c Hxy' Hrest]; subst;
    unfold mergeStep in *.
  - assert (x = y) as -> by congruence. apply rtc_refl.
  - assert (b = y) as -> by congruence. apply tc_rtc, Hrest.
Qed.

(** On an id of a cycle the loop of [resolveId] never exits. *)
Lemma resolveId_diverges_on_cycle merges id :
  tc (mergeStep merges) id id -> forall fuel, resolveId fuel id merges = None.
Proof.
  intros Hc fuel.
  destruct (resolveId fuel id merges) as [r|] eqn:E; [|reflexivity].
  apply resolveId_sound in E as [Hr Hn].
  pose proof (cycle_propagates _ _ _ Hr Hc) as Hrr.
  inversion Hrr as [? ? Hs | ? ? ? Hs _]; subst;
    unfold mergeStep in Hs; congruence.
Qed.

Lemma tc_included {T} (R1 R2 : relation T) (x y : T) :
  (forall a b, R1 a b -> R2 a b) -> tc R1 x y -> tc R2 x y.
Proof.
  intros Hsub. induction 1 as [a b Hab | a b c Hab _ IH].
  - apply tc_once, Hsub, Hab.
  - eapply tc_l; [apply Hsub, Hab | exact IH].
Qed.

Lemma acyclic_delete merges id : acyclic merges -> acyclic (delete id merges).
Proof.
  intros Ha x Hx. apply (Ha x).
  eapply tc_included; [|exact Hx].
  intros a b. unfold mergeStep. rewrite lookup_delete_Some. tauto.
Qed.

Lemma reaches_delete merges id a b :
  reaches (delete id merges) a b -> reaches merges a b.
Proof.
  apply rtc_subrel. intros x y. unfold mergeStep.
  rewrite lookup_delete_Some. tauto.
Qed.

(** Resolution in the map without [id] is resolution in the map, as
    long as it does not end on [id]. *)
Lemma resolveId_delete merges id fuel : forall x r,
  resolveId fuel x (delete id merges) = Some r -> r <> id ->
  resolveId fuel x merges = Some r.
Proof.
  induction fuel as [|fuel IH]; intros x r; simpl;
    destruct (decide (x = id)) as [->|Hne].
  - rewrite lookup_delete_eq. intros [= <-] Hr. contradiction.
  - rewrite lookup_delete_ne by done.
    destruct (merges !! x); [discriminate | tauto].
  - rewrite lookup_delete_eq. intros [= <-] Hr. contradiction.
  - rewrite lookup_delete_ne by done.
    destruct (merges !! x); [apply IH | tauto].
Qed.

(** On an acyclic map the loop exits within as many hops as the map
    has entries. *)
Lemma resolveId_terminates : forall n merges id,
  size merges = n -> acyclic merges ->
  exists r, resolveId n id merges = Some r.
Proof.
  induction n as [|n IH]; intros merges id Hsize Ha.
  - apply map_size_empty_inv in Hsize as ->.
    exists id. apply resolveId_unmapped, lookup_empty.
  - destruct (merges !! id) as [next|] eqn:E.
    2:{ exists id. apply resolveId_unmapped, E. }
    rewrite (resolveId_mapped _ _ _ _ E).
    assert (size (delete id merges) = n) as Hs.
    { rewrite map_size_delete_Some by (exists next; exact E). lia. }
    destruct (IH (delete id merges) next Hs (acyclic_delete _ _ Ha)) as [r Hr].
    exists r. apply resolveId_delete with id; [exact Hr|].
    intros ->. apply resolveId_sound in Hr as [Hreach _].
    apply (Ha id). eapply tc_rtc_r; [apply tc_once, E|].
    eapply reaches_delete, Hreach.
Qed.

(** A map on which every resolution returns has no cycle. *)
Lemma acyclic_of_terminating merges :
  (forall id, exists fuel r, resolveId fuel id merges = Some r) -> acyclic merges.
Proof.
  intros Hall id Hc. destruct (Hall id) as (fuel & r & Hr).
  rewrite (resolveId_diverges_on_cycle _ _ Hc) in Hr. discriminate.
Qed.

Lemma tc_first_step merges id x :
  tc (mergeStep merges) id x -> exists next, merges !! id = Some next.
Proof. destruct 1 as [a b H | a b c H _]; exists b; exact H. Qed.

Lemma acyclicb_sound merges : acyclicb merges = true -> acyclic merges.
Proof.
  intros Hb id Hc.
  destruct (tc_first_step _ _ _ Hc) as [next Hnext].
  unfold acyclicb in Hb. rewrite forallb_forall in Hb.
  specialize (Hb (id, next)). simpl in Hb.
  rewrite (resolveId_diverges_on_cycle _ _ Hc) in Hb.
  assert (false = true) by (apply Hb, list_elem_of_In, elem_of_map_to_list, Hnext).
  discriminate.
Qed.

(** Resolution from [a] is untouched by a new entry for a key that the
    chain from [a] does not meet. *)
Lemma resolveId_insert_unreached merges b v fuel : forall a r,
  resolveId fuel a merges = Some r -> ~ reaches merges a b ->
  resolveId fuel a (<[b := v]> merges) = Some r.
Proof.
  induction fuel as [|fuel IH]; intros a r; simpl; intros Hr Hnot;
    (assert (b <> a) as Hne by (intros ->; apply Hnot, rtc_refl));
    rewrite lookup_insert_ne by done;
    destruct (merges !! a) as [next|] eqn:E; try discriminate; try exact Hr.
  apply IH; [exact Hr|].
  intros Hreach. apply Hnot. eapply rtc_l; [exact E | exact Hreach].
Qed.

Lemma terminating_insert merges a b fuel : forall id r,
  (exists fuel' r', resolveId fuel' a (<[b := a]> merges) = Some r') ->
  resolveId fuel id merges = Some r ->
  exists fuel' r', resolveId fuel' id (<[b := a]> merges) = Some r'.
Proof.
  induction fuel as [|fuel IH]; intros id r Ha; simpl;
    destruct (decide (id = b)) as [->|Hne].
  - intros _. destruct Ha as (n & r' & Hn). exists (S n), r'.
    rewrite (resolveId_mapped _ _ a) by apply lookup_insert_eq. exact Hn.
  - destruct (merges !! id) eqn:E; [discriminate|]. intros _.
    exists 0, id. apply resolveId_unmapped. rewrite lookup_insert_ne by done. exact E.
  - intros _. destruct Ha as (n & r' & Hn). exists (S n), r'.
    rewrite (resolveId_mapped _ _ a) by apply lookup_insert_eq. exact Hn.
  - destruct (merges !! id) as [next|] eqn:E.
    + intros Hr. destruct (IH _ _ Ha Hr) as (n & r' & Hn). exists (S n), r'.
      rewrite (resolveId_mapped _ _ next); [exact Hn|].
      rewrite lookup_insert_ne by done. exact E.
    + intros _. exists 0, id. apply resolveId_unmapped.
      rewrite lookup_insert_ne by done. exact E.
Qed.

(** Merging [b] into [a] keeps the map acyclic when [a] does not
    already lead to [b]. *)
Lemma acyclic_insert merges a b :
  acyclic merges -> ~ reaches merges a b -> acyclic (<[b := a]> merges).
Proof.
  intros Hac Hnot. apply acyclic_of_terminating. intros id.
  destruct (resolveId_terminates _ merges a eq_refl Hac) as [ra Hra].
  destruct (resolveId_terminates _ merges id eq_refl Hac) as [r Hr].
  eapply terminating_insert; [|exact Hr].
  exists (size merges), ra. apply resolveId_insert_unreached; assumption.
Qed.

Lemma reaches_unmapped (merges : gmap string string) (a b : string) :
  merges !! a = None -> reaches merges a b -> a = b.
Proof.
  intros Ha Hr. destruct Hr as [|x y z Hxy _]; [reflexivity|].
  unfold mergeStep in Hxy. congruence.
Qed.

(** No id is met twice on the way to the end of a chain: the chain from
    [x] to the unmapped [r] is still there when an id that leads to [x]
    is removed from the map. *)
Lemma reaches_delete_before merges id x r :
  reaches merges x r -> merges !! r = None ->
  tc (mergeStep merges) id x -> reaches (delete id merges) x r.
Proof.
  intros Hxr Hr. induction Hxr as [x | x y z Hxy Hyz IH]; intros Hid.
  - apply rtc_refl.
  - assert (x <> id) as Hne.
    { intros ->.
      pose proof (cycle_propagates merges id z (rtc_l _ _ _ _ Hxy Hyz) Hid) as Hc.
      inversion Hc as [? ? Hs | ? ? ? Hs _]; subst;
        unfold mergeStep in Hs; congruence. }
    eapply rtc_l.
    + unfold mergeStep. rewrite lookup_delete_ne by done. exact Hxy.
    + apply IH; [exact Hr|]. eapply tc_r; [exact Hid | exact Hxy].
Qed.

(** Whatever else the map holds, the loop exits within as many hops as
    the map has entries on an id whose chain ends. *)
Lemma resolveId_reaches_end : forall n merges id r,
  size merges = n -> reaches merges id r -> merges !! r = None ->
  resolveId n id merges = Some r.
Proof.
  induction n as [|n IH]; intros merges id r Hsize Hreach Hr.
  - apply map_size_empty_inv in Hsize as ->.
    apply reaches_unmapped in Hreach as <-; [|apply lookup_empty].
    apply resolveId_unmapped, lookup_empty.
  - destruct (merges !! id) as [next|] eqn:E.
    2:{ apply reaches_unmapped in Hreach as <-; [|exact E].
        apply resolveId_unmapped, E. }
    rewrite (resolveId_mapped _ _ _ _ E).
    assert (reaches merges next r) as Hnext.
    { inversion Hreach as [|? y ? Hs Hrest]; subst; [congruence|].
      unfold mergeStep in Hs. assert (y = next) as -> by congruence. exact Hrest. }
    apply resolveId_delete with id; [|intros ->; rewrite E in Hr; discriminate].
    apply IH.
    + rewrite map_size_delete_Some by (exists next; exact E). lia.
    + apply reaches_delete_before; [exact Hnext | exact Hr | apply tc_once, E].
    + rewrite lookup_delete_None. right. exact Hr.
Qed.


Lemma chainEnds_of_returned merges id fuel r :
  resolveId fuel id merges = Some r -> chainEnds merges id.
Proof. intros H. exists r. apply (resolveId_sound _ _ _ _ H). Qed.

Lemma chainEnds_acyclic merges id : acyclic merges -> chainEnds merges id.
Proof.
  intros Hac. destruct (resolveId_terminates _ merges id eq_refl Hac) as [r Hr].
  apply (chainEnds_of_returned _ _ _ _ Hr).
Qed.

End MergeMap.

(** C2 (as the source has it): on every merge map, with a cycle or
    without, an id whose merge chain ends resolves to the end of its
    chain within as many hops as the map has entries; an id without a
    mapping resolves to itself at once; whatever is returned is the end
    of the chain of the input; and on an acyclic map every chain
    ends. *)
Theorem C2_resolution_returns_when_the_chain_ends
    (merges : gmap string string) (id : string) :
  (forall r, reaches merges id r -> merges !! r = None ->
     forall fuel, size merges <= fuel -> Dynamic.resolveId fuel id merges = Some r) /\
  (merges !! id = None -> forall fuel, Dynamic.resolveId fuel id merges = Some id) /\
  (forall fuel r, Dynamic.resolveId fuel id merges = Some r ->
     reaches merges id r /\ merges !! r = None) /\
  (acyclic merges -> exists r, reaches merges id r /\ merges !! r = None).
Proof.
  split; [|split; [|split]].
  - intros r Hreach Hr fuel Hle.
    apply (resolveId_mono _ (size merges)); [exact Hle|].
    apply resolveId_reaches_end; [reflexivity | exact Hreach | exact Hr].
  - intros Hid fuel. apply resolveId_unmapped, Hid.
  - intros fuel r. apply resolveId_sound.
  - intros Hac. apply chainEnds_acyclic, Hac.
Qed.

Lemma C2_witness :
  (forall fuel, size mixedMap <= fuel -> Dynamic.resolveId fuel "c" mixedMap = Some "d") /\
  (forall fuel, Dynamic.resolveId fuel "z" mixedMap = Some "z") /\
  ~ acyclic mixedMap.
Proof.
  split; [|split].
  - apply (proj1 (C2_resolution_returns_when_the_chain_ends mixedMap "c")).
    + apply rtc_once. reflexivity.
    + reflexivity.
  - apply (proj1 (proj2 (C2_resolution_returns_when_the_chain_ends mixedMap "z"))).
    reflexivity.
  - intros Hac. apply (Hac "a").
    eapply tc_l; [|apply tc_once]; unfold mergeStep; reflexivity.
Defined.

(** C2 as stated fails: on the map with [a -> b] and [b -> a] the loop
    of [resolveId] exits for no number of iterations. *)
Lemma C2_cyclic_map_never_resolves :
  ~ exists fuel r, Dynamic.resolveId fuel "a" cycleMap = Some r.
Proof.
  intros (fuel & r & Hr).
  rewrite resolveId_diverges_on_cycle in Hr; [discriminate|].
  eapply tc_l; [|apply tc_once]; unfold mergeStep; reflexivity.
Qed.

(** * Properties of the relationship editor *)

Section Editor.

Import Dynamic.
Implicit Types (pedigree : DynamicPedigree).

Lemma Sex_eqb_eq (a b : Sex) : Sex_eqb a b = true <-> a = b.
Proof. destruct a, b; simpl; split; congruence. Qed.

Lemma findParentOfSex_Some pedigree s parents p :
  findParentOfSex pedigree s parents = Some p ->
  exists person, ped_persons pedigree !! p = Some person /\ sex person = s.
Proof.
  unfold findParentOfSex. intros H. apply find_some in H as [_ H].
  destruct (ped_persons pedigree !! p) as [person|]; [|discriminate].
  exists person. split; [reflexivity | apply Sex_eqb_eq, H].
Qed.

Lemma mergeInto_distinct (a b : string) (merges : gmap string string) :
  truthy a = true -> truthy b = true -> a <> b ->
  mergeInto (Some a) (Some b) merges = <[b := a]> merges.
Proof.
  intros Ha Hb Hne. unfold mergeInto. rewrite Ha, Hb. simpl.
  destruct (String.eqb a b) eqn:E; [|reflexivity].
  apply String.eqb_eq in E. contradiction.
Qed.

(** The loops of [pedigreeToGraph] return when the merge map is acyclic. *)
Lemma resolvedEdges_returns pedigree :
  acyclic (merges pedigree) ->
  exists es, resolvedEdges (size (merges pedigree)) pedigree = Some es.
Proof.
  intros Hac. unfold resolvedEdges.
  destruct (for_each_invariant (fun _ => True)
              (fun edges edge =>
                 match resolveId (size (merges pedigree)) (parentId edge) (merges pedigree) with
                 | None => None
                 | Some parentId' =>
                     match resolveId (size (merges pedigree)) (childId edge) (merges pedigree) with
                     | None => None
                     | Some childId' =>
                         Some (if existsb (fun e => String.eqb (parentId e) parentId'
                                                    && String.eqb (childId e) childId') edges
                               then edges
                               else edges ++ [ {| parentId := parentId'; childId := childId' |} ])
                     end
                 end)
              (ped_edges pedigree)) with ([] : list ParentChildEdge) as (es & Hes & _);
    [| exact I | exists es; exact Hes].
  intros s e _ _.
  destruct (resolveId_terminates _ _ (parentId e) eq_refl Hac) as [p ->].
  destruct (resolveId_terminates _ _ (childId e) eq_refl Hac) as [c ->].
  eauto.
Qed.

Lemma resolvedLinks_returns pedigree :
  acyclic (merges pedigree) ->
  exists ls, resolvedLinks (size (merges pedigree)) pedigree = Some ls.
Proof.
  intros Hac. unfold resolvedLinks.
  destruct (for_each_invariant (fun _ => True)
              (fun links rel =>
                 match resolveId (size (merges pedigree)) (person1Id rel) (merges pedigree) with
                 | None => None
                 | Some id1 =>
                     match resolveId (size (merges pedigree)) (person2Id rel) (merges pedigree) with
                     | None => None
                     | Some id2 =>
                         Some (match type rel with
                               | DeclUnrelated | DeclSpouse => links
                               | t => links ++ [ {| link_person1Id := id1;
                                                    link_person2Id := id2;
                                                    link_relationship := linkRelationship t |} ]
                               end)
                     end
                 end)
              (definedRelationships pedigree)) with ([] : list ConsanguinityLink)
    as (ls & Hls & _); [| exact I | exists ls; exact Hls].
  intros s rel _ _.
  destruct (resolveId_terminates _ _ (person1Id rel) eq_refl Hac) as [a ->].
  destruct (resolveId_terminates _ _ (person2Id rel) eq_refl Hac) as [b ->].
  eauto.
Qed.

Lemma pedigreeToGraph_returns pedigree :
  acyclic (merges pedigree) ->
  exists graph, pedigreeToGraph (size (merges pedigree)) pedigree = Some graph /\
                persons graph = visiblePersons pedigree.
Proof.
  intros Hac. unfold pedigreeToGraph.
  destruct (resolvedEdges_returns _ Hac) as [es ->].
  destruct (resolvedLinks_returns _ Hac) as [ls ->].
  eexists. split; reflexivity.
Qed.

(** [pedigreeToGraph] does not return when the parent of the first
    edge lies on a cycle of the merge map. *)
Lemma pedigreeToGraph_diverges pedigree e rest :
  ped_edges pedigree = e :: rest ->
  tc (mergeStep (merges pedigree)) (parentId e) (parentId e) ->
  forall fuel, pedigreeToGraph fuel pedigree = None.
Proof.
  intros He Hc fuel. unfold pedigreeToGraph, resolvedEdges.
  rewrite He, for_each_head_None; [reflexivity|].
  rewrite (resolveId_diverges_on_cycle _ _ Hc). reflexivity.
Qed.

Lemma visiblePersons_lookup pedigree p person :
  ped_persons pedigree !! p = Some person -> merges pedigree !! p = None ->
  visiblePersons pedigree !! p = Some person.
Proof.
  intros Hp Hm. unfold visiblePersons.
  apply map_lookup_filter_Some. split; [exact Hp | exact Hm].
Qed.

(** C3 fails on the source: on the first-cousins base pedigree,
    declaring p1 and p2 siblings and then p2 and p1 siblings leaves a
    merge map in which father1 maps to father2 and father2 back to
    father1; the map was acyclic before each of the two calls, and
    after the second [pedigreeToGraph] never returns. *)
Theorem C3_redeclared_siblings_close_a_cycle :
  let pedigree1 := addRelationship cousinsBase "p1" "p2" DeclSiblings in
  let pedigree2 := addRelationship pedigree1 "p2" "p1" DeclSiblings in
  acyclic (merges cousinsBase) /\
  acyclic (merges pedigree1) /\
  merges pedigree2 !! "father1" = Some "father2" /\
  merges pedigree2 !! "father2" = Some "father1" /\
  ~ acyclic (merges pedigree2) /\
  ~ exists fuel graph, pedigreeToGraph fuel pedigree2 = Some graph.
Proof.
  cbv zeta.
  assert (tc (mergeStep (merges
            (addRelationship (addRelationship cousinsBase "p1" "p2" DeclSiblings)
               "p2" "p1" DeclSiblings))) "father1" "father1") as Hcycle.
  { eapply tc_l; [|apply tc_once]; unfold mergeStep; vm_compute; reflexivity. }
  split; [apply acyclicb_sound; vm_compute; reflexivity|].
  split; [apply acyclicb_sound; vm_compute; reflexivity|].
  split; [vm_compute; reflexivity|].
  split; [vm_compute; reflexivity|].
  split; [intros Hac; exact (Hac _ Hcycle)|].
  intros (fuel & graph & Hg).
  rewrite (pedigreeToGraph_diverges _ (addEdge "father1" "p1")
             (tl (ped_edges cousinsBase))) in Hg;
    [discriminate | reflexivity | exact Hcycle].
Qed.

(** A first declaration of half-siblings does what is meant: when A
    and B have distinct fathers with non-empty ids, the merge map is
    acyclic and A's father does not already lead to B's father in it,
    declaring half-siblings adds the one entry B's father -> A's
    father; both father ids then resolve to the same id; no female
    person gets or loses an entry; and the visible graph is produced
    and still shows two distinct mothers that were not merged away
    before. *)
Lemma half_siblings_merge_fathers_only
    (pedigree : DynamicPedigree) (idA idB father1 father2 : string) :
  findParentOfSex pedigree M (parentsOfPerson pedigree idA) = Some father1 ->
  findParentOfSex pedigree M (parentsOfPerson pedigree idB) = Some father2 ->
  father1 <> father2 ->
  truthy father1 = true ->
  truthy father2 = true ->
  acyclic (merges pedigree) ->
  ~ reaches (merges pedigree) father1 father2 ->
  let pedigree' := addRelationship pedigree idA idB DeclHalfSiblings in
  let fuel := size (merges pedigree') in
  merges pedigree' = <[father2 := father1]> (merges pedigree) /\
  (exists canonical,
     resolveId fuel father1 (merges pedigree') = Some canonical /\
     resolveId fuel father2 (merges pedigree') = Some canonical) /\
  (forall mother person,
     ped_persons pedigree !! mother = Some person -> sex person = F ->
     merges pedigree' !! mother = merges pedigree !! mother) /\
  (exists graph,
     pedigreeToGraph fuel pedigree' = Some graph /\
     forall mother1 mother2,
       findParentOfSex pedigree F (parentsOfPerson pedigree idA) = Some mother1 ->
       findParentOfSex pedigree F (parentsOfPerson pedigree idB) = Some mother2 ->
       mother1 <> mother2 ->
       merges pedigree !! mother1 = None ->
       merges pedigree !! mother2 = None ->
       is_Some (persons graph !! mother1) /\ is_Some (persons graph !! mother2)).
Proof.
  intros Hf1 Hf2 Hne Ht1 Ht2 Hac Hnot pedigree' fuel.
  assert (merges pedigree' = <[father2 := father1]> (merges pedigree)) as Hm.
  { unfold pedigree', addRelationship. simpl. rewrite Hf1, Hf2.
    apply mergeInto_distinct; assumption. }
  assert (acyclic (merges pedigree')) as Hac'.
  { rewrite Hm. apply acyclic_insert; assumption. }
  assert (forall mother person,
            ped_persons pedigree !! mother = Some person -> sex person = F ->
            merges pedigree' !! mother = merges pedigree !! mother) as Hframe.
  { intros mother person Hp Hs. rewrite Hm. apply lookup_insert_ne.
    intros <-. apply findParentOfSex_Some in Hf2 as (p2 & Hp2 & Hs2).
    congruence. }
  split; [exact Hm|]. split; [|split; [exact Hframe|]].
  - destruct (resolveId_terminates _ _ father2 eq_refl Hac') as [r Hr].
    exists r. split; [|exact Hr].
    apply (resolveId_mono _ _ (S fuel)) in Hr; [|unfold fuel; lia].
    rewrite (resolveId_mapped _ _ father1) in Hr; [exact Hr|].
    rewrite Hm. apply lookup_insert_eq.
  - destruct (pedigreeToGraph_returns _ Hac') as (graph & Hg & Hpersons).
    exists graph. split; [exact Hg|].
    intros mother1 mother2 H1 H2 _ Hn1 Hn2. rewrite Hpersons.
    apply findParentOfSex_Some in H1 as (q1 & Hq1 & Hs1).
    apply findParentOfSex_Some in H2 as (q2 & Hq2 & Hs2).
    split; [exists q1 | exists q2]; apply visiblePersons_lookup; try assumption.
    + rewrite (Hframe _ _ Hq1 Hs1). exact Hn1.
    + rewrite (Hframe _ _ Hq2 Hs2). exact Hn2.
Qed.

Example half_siblings_on_the_base_pedigree :
  exists canonical,
    resolveId 1 "father1"
      (merges (addRelationship cousinsBase "p1" "p2" DeclHalfSiblings)) = Some canonical /\
    resolveId 1 "father2"
      (merges (addRelationship cousinsBase "p1" "p2" DeclHalfSiblings)) = Some canonical.
Proof.
  refine (proj1 (proj2
    (half_siblings_merge_fathers_only cousinsBase "p1" "p2" "father1" "father2"
       _ _ _ _ _ _ _))).
  - vm_compute. reflexivity.
  - vm_compute. reflexivity.
  - discriminate.
  - reflexivity.
  - reflexivity.
  - apply acyclicb_sound. vm_compute. reflexivity.
  - intros Hr. apply reaches_unmapped in Hr; [discriminate | reflexivity].
Defined.

(** C5 fails on the source: after half-siblings was declared for
    (p2, p1) on the first-cousins base pedigree, p1 and p2 still have
    the distinct fathers father1 and father2 and the distinct mothers
    mother1 and mother2 by edge scan, and the merge map is acyclic; yet
    declaring half-siblings for (p1, p2) sets father1 -> father2 on top
    of father2 -> father1, so the fathers resolve to no canonical id
    (the resolution never returns) and the visible graph is never
    produced.  The guard compares the raw ids of the fathers instead of
    the resolved ones, as in C3. *)
Theorem C5_fathers_do_not_resolve_after_redeclaration :
  let pedigree1 := addRelationship cousinsBase "p2" "p1" DeclHalfSiblings in
  let pedigree2 := addRelationship pedigree1 "p1" "p2" DeclHalfSiblings in
  findParentOfSex pedigree1 M (parentsOfPerson pedigree1 "p1") = Some "father1" /\
  findParentOfSex pedigree1 M (parentsOfPerson pedigree1 "p2") = Some "father2" /\
  findParentOfSex pedigree1 F (parentsOfPerson pedigree1 "p1") = Some "mother1" /\
  findParentOfSex pedigree1 F (parentsOfPerson pedigree1 "p2") = Some "mother2" /\
  acyclic (merges pedigree1) /\
  ~ (exists fuel canonical,
       resolveId fuel "father1" (merges pedigree2) = Some canonical) /\
  ~ (exists fuel graph, pedigreeToGraph fuel pedigree2 = Some graph).
Proof.
  cbv zeta.
  assert (tc (mergeStep (merges
            (addRelationship (addRelationship cousinsBase "p2" "p1" DeclHalfSiblings)
               "p1" "p2" DeclHalfSiblings))) "father1" "father1") as Hcycle.
  { eapply tc_l; [|apply tc_once]; unfold mergeStep; vm_compute; reflexivity. }
  repeat (split; [vm_compute; reflexivity|]).
  split; [apply acyclicb_sound; vm_compute; reflexivity|].
  split.
  - intros (fuel & r & Hr).
    rewrite (resolveId_diverges_on_cycle _ _ Hcycle) in Hr. discriminate.
  - intros (fuel & graph & Hg).
    rewrite (pedigreeToGraph_diverges _ (addEdge "father1" "p1")
               (tl (ped_edges cousinsBase))) in Hg;
      [discriminate | reflexivity | exact Hcycle].
Qed.

End Editor.

(** * Visited sets *)

Section Visited.

Implicit Types (universe visited : gset string).

(** Visiting a new element of the universe leaves fewer to visit. *)
Lemma unvisited_add_decreases universe visited (x : string) :
  x ∈ universe -> x ∉ visited ->
  size (universe ∖ ({[x]} ∪ visited)) < size (universe ∖ visited).
Proof.
  intros Hin Hout. apply subset_size. split.
  - intros y. rewrite !elem_of_difference, elem_of_union. tauto.
  - intros Hall. specialize (Hall x).
    rewrite !elem_of_difference, elem_of_union, elem_of_singleton in Hall.
    destruct Hall as [_ Hn]; [split; assumption|]. apply Hn. left. reflexivity.
Qed.

Lemma unvisited_anti universe visited visited' :
  visited ⊆ visited' -> size (universe ∖ visited') <= size (universe ∖ visited).
Proof.
  intros Hsub. apply subseteq_size. intros y.
  rewrite !elem_of_difference. intros [Hy Hn]. split; [exact Hy|].
  intros Hv. apply Hn, Hsub, Hv.
Qed.

End Visited.

(** * Properties of the ancestor-path finder of [lib/genetics.ts] *)

Section PathFinder.

Import Genetics.
Implicit Types (graph : FamilyGraph) (visited : gset string).

(** The persons of the graph not yet visited bound the depth of the
    recursion: with more fuel than that, [getAllAncestors] returns, and
    the [visited] set only grows. *)
Lemma getAllAncestors_returns graph : forall fuel personId visited,
  size (dom (persons graph) ∖ visited) < fuel ->
  exists res, getAllAncestors fuel personId graph visited = Some res /\
              visited ⊆ res.2.
Proof.
  induction fuel as [|fuel IH]; intros personId visited Hfuel; [lia|].
  simpl. destruct (decide (personId ∈ visited)) as [Hin|Hout].
  { eexists. split; [reflexivity | done]. }
  destruct (persons graph !! personId) as [person|] eqn:E.
  2:{ eexists. split; [reflexivity | apply union_subseteq_r]. }
  assert (size (dom (persons graph) ∖ ({[personId]} ∪ visited)) < fuel) as Hless.
  { assert (personId ∈ dom (persons graph)) as Hdom by (apply elem_of_dom; eauto).
    pose proof (unvisited_add_decreases _ _ _ Hdom Hout). lia. }
  match goal with
  | |- exists res, for_each ?body ?l ?s = Some res /\ _ =>
      destruct (for_each_invariant
                  (fun st : omap (list string) * gset string =>
                     {[personId]} ∪ visited ⊆ st.2) body l) with s
        as (res & Hres & Hinv)
  end.
  - intros [ancestors v] parent Hv _. simpl in Hv.
    destruct (IH parent v) as ([grand v'] & -> & Hsub).
    + eapply Nat.le_lt_trans; [|exact Hless]. apply unvisited_anti, Hv.
    + eexists. split; [reflexivity|]. simpl in *.
      etrans; [exact Hv | exact Hsub].
  - simpl. done.
  - exists res. split; [exact Hres|].
    etrans; [apply union_subseteq_r | exact Hinv].
Qed.

(** More fuel does not change a result. *)
Lemma getAllAncestors_mono graph : forall fuel fuel' personId visited res,
  fuel <= fuel' ->
  getAllAncestors fuel personId graph visited = Some res ->
  getAllAncestors fuel' personId graph visited = Some res.
Proof.
  induction fuel as [|fuel IH]; intros fuel' personId visited res Hle;
    [discriminate|].
  destruct fuel' as [|fuel']; [lia|]. simpl.
  destruct (decide (personId ∈ visited)); [tauto|].
  destruct (persons graph !! personId); [|tauto].
  apply for_each_mono. intros [ancestors v] parent st.
  destruct (getAllAncestors fuel parent graph v) as [[grand v']|] eqn:E;
    [|discriminate].
  rewrite (IH fuel' _ _ _ ltac:(lia) E). tauto.
Qed.

Lemma findAncestorPaths_mono graph fuel fuel' person1Id person2Id paths :
  fuel <= fuel' ->
  findAncestorPaths fuel person1Id person2Id graph = Some paths ->
  findAncestorPaths fuel' person1Id person2Id graph = Some paths.
Proof.
  intros Hle. unfold findAncestorPaths.
  destruct (getAllAncestors fuel person1Id graph ∅) as [[a1 v1]|] eqn:E1;
    [|discriminate].
  destruct (getAllAncestors fuel person2Id graph ∅) as [[a2 v2]|] eqn:E2;
    [|discriminate].
  rewrite (getAllAncestors_mono _ _ _ _ _ _ Hle E1).
  rewrite (getAllAncestors_mono _ _ _ _ _ _ Hle E2). tauto.
Qed.

(** A person that is not in the store has no recorded ancestor. *)
Lemma getAllAncestors_absent graph fuel personId visited res :
  persons graph !! personId = None ->
  getAllAncestors fuel personId graph visited = Some res -> res.1 = [].
Proof.
  intros Habs. destruct fuel as [|fuel]; [discriminate|]. simpl.
  destruct (decide (personId ∈ visited)); [intros [= <-]; reflexivity|].
  rewrite Habs. intros [= <-]. reflexivity.
Qed.

Lemma fold_paths_no_match (ancestors1 : omap (list string)) (acc : list AncestorPath) :
  fold_left
    (fun paths '(ancestorId, path1) =>
       match oget ancestorId ([] : omap (list string)) with
       | Some path2 =>
           paths ++ [ {| personIds := path1 ++ ancestorId :: rev path2;
                         commonAncestorId := ancestorId;
                         steps := length path1 + length path2 |} ]
       | None => paths
       end)
    ancestors1 acc = acc.
Proof.
  revert acc. induction ancestors1 as [|[k v] l IH]; intros acc; simpl;
    [reflexivity | apply IH].
Qed.

(** C8: when either target id is absent from the person map of the
    store, [findAncestorPaths] returns, and returns the empty sequence;
    any fuel above the number of persons is enough. *)
Theorem C8_absent_target_gives_no_paths
    (graph : FamilyGraph) (person1Id person2Id : string) (extra : nat) :
  persons graph !! person1Id = None \/ persons graph !! person2Id = None ->
  findAncestorPaths (S (size (persons graph)) + extra) person1Id person2Id graph
  = Some [].
Proof.
  intros Habs. unfold findAncestorPaths.
  assert (forall personId,
            exists res, getAllAncestors (S (size (persons graph)) + extra)
                          personId graph ∅ = Some res) as Hret.
  { intros personId.
    destruct (getAllAncestors_returns graph (S (size (persons graph)) + extra)
                personId ∅) as (res & Hres & _); [|eauto].
    rewrite difference_empty_L, size_dom. lia. }
  destruct (Hret person1Id) as ([a1 v1] & H1).
  destruct (Hret person2Id) as ([a2 v2] & H2).
  rewrite H1, H2. f_equal. destruct Habs as [Habs | Habs].
  - apply (getAllAncestors_absent _ _ _ _ _ Habs) in H1. simpl in H1. subst a1.
    reflexivity.
  - apply (getAllAncestors_absent _ _ _ _ _ Habs) in H2. simpl in H2. subst a2.
    apply fold_paths_no_match.
Qed.

Lemma C8_witness :
  findAncestorPaths (S (size (persons Templates.createSiblingPedigree)) + 0)
    "child1" "stranger" Templates.createSiblingPedigree = Some [].
Proof.
  apply C8_absent_target_gives_no_paths. right. vm_compute. reflexivity.
Defined.

End PathFinder.

(** * Properties of the path finder of [lib/dynamic-pedigree.ts] *)

Section DynamicPaths.

Import Dynamic.
Implicit Types (pedigree : DynamicPedigree) (parentOf : gmap string (list string)).


Lemma dfs_mono parentOf : forall fuel fuel' current depth st res,
  fuel <= fuel' ->
  dfs fuel parentOf current depth st = Some res ->
  dfs fuel' parentOf current depth st = Some res.
Proof.
  induction fuel as [|fuel IH]; intros fuel' current depth [ancestors visited] res Hle;
    [discriminate|].
  destruct fuel' as [|fuel']; [lia|]. simpl.
  destruct (decide (current ∈ visited)); [tauto|].
  apply for_each_mono. intros [anc v] parent st. apply IH. lia.
Qed.

Lemma buildParentOf_mono pedigree fuel fuel' parentOf :
  fuel <= fuel' ->
  buildParentOf fuel pedigree = Some parentOf ->
  buildParentOf fuel' pedigree = Some parentOf.
Proof.
  intros Hle. unfold buildParentOf. apply for_each_mono. intros acc edge acc'.
  destruct (resolveId fuel (childId edge) (merges pedigree)) as [c|] eqn:Ec;
    [|discriminate].
  rewrite (resolveId_mono _ _ _ _ _ Hle Ec).
  destruct (resolveId fuel (parentId edge) (merges pedigree)) as [p|] eqn:Ep;
    [|discriminate].
  rewrite (resolveId_mono _ _ _ _ _ Hle Ep). tauto.
Qed.

Lemma getAncestors_mono parentOf merges fuel fuel' id ancestors :
  fuel <= fuel' ->
  getAncestors fuel parentOf merges id = Some ancestors ->
  getAncestors fuel' parentOf merges id = Some ancestors.
Proof.
  intros Hle. unfold getAncestors.
  destruct (resolveId fuel id merges) as [start|] eqn:Er; [|discriminate].
  rewrite (resolveId_mono _ _ _ _ _ Hle Er).
  destruct (dfs fuel parentOf start 0 ([], ∅)) as [[a v]|] eqn:Ed; [|discriminate].
  rewrite (dfs_mono _ _ _ _ _ _ _ Hle Ed). tauto.
Qed.

Lemma findAllPaths_mono pedigree fuel fuel' id1 id2 paths :
  fuel <= fuel' ->
  findAllPaths fuel id1 id2 pedigree = Some paths ->
  findAllPaths fuel' id1 id2 pedigree = Some paths.
Proof.
  intros Hle. unfold findAllPaths.
  destruct (buildParentOf fuel pedigree) as [parentOf|] eqn:Eb; [|discriminate].
  rewrite (buildParentOf_mono _ _ _ _ Hle Eb).
  destruct (getAncestors fuel parentOf (merges pedigree) id1) as [a1|] eqn:E1;
    [|discriminate].
  rewrite (getAncestors_mono _ _ _ _ _ _ Hle E1).
  destruct (getAncestors fuel parentOf (merges pedigree) id2) as [a2|] eqn:E2;
    [|discriminate].
  rewrite (getAncestors_mono _ _ _ _ _ _ Hle E2). tauto.
Qed.

Lemma calculateFromPedigree_mono pedigree fuel fuel' result :
  fuel <= fuel' ->
  calculateFromPedigree fuel pedigree = Some result ->
  calculateFromPedigree fuel' pedigree = Some result.
Proof.
  intros Hle. unfold calculateFromPedigree. destruct (targetPair pedigree) as [id1 id2].
  destruct (findAllPaths fuel id1 id2 pedigree) as [paths|] eqn:E; [|discriminate].
  rewrite (findAllPaths_mono _ _ _ _ _ _ Hle E). tauto.
Qed.







Local Open Scope Q_scope.

Lemma pathSum_sum (paths : list (list string)) : pathSum paths == rawPathSum paths.
Proof.
  unfold pathSum, rawPathSum. cbv zeta.
  rewrite (fold_sum (fun path : list string => pow_half (Z.of_nat (length path) - 1))).
  ring.
Qed.





(** The cap is met: with five shared parents the path sum is 1.25, the
    returned r is 1 and the returned F is 0.625. *)
Example five_shared_parents :
  exists result,
    calculateFromPedigree 2 fiveParents = Some result /\
    pathSum (contributingPaths result) == 1.25 /\
    coefficientOfRelationship result == 1 /\
    inbreedingCoefficient result == 0.625.
Proof.
  eexists. split; [vm_compute; reflexivity|].
  repeat split; vm_compute; reflexivity.
Qed.

(** C7 fails on the source: in the inbred pedigree the traversal from
    the child reaches the father first through the mother, at depth 2,
    and records his father at depth 3; the later visit of the father
    at depth 1 lowers the father's own entry but stops at the visited
    check, so the grandfather keeps 3 although the upward path
    child - father - grandfather has 2 edges.  The traversal of
    [lib/genetics.ts] records the path of 3 ids for him likewise. *)
Theorem C7_recorded_depth_is_not_the_shortest (extra : nat) :
  exists parentOf ancestors,
    buildParentOf (4 + extra) inbredPedigree = Some parentOf /\
    getAncestors (4 + extra) parentOf (merges inbredPedigree) "child" = Some ancestors /\
    oget "father" ancestors = Some 1%nat /\
    oget "grandfather" ancestors = Some 3%nat /\
    upwardPath parentOf 2 "child" "grandfather" /\
    exists ancestors' visited,
      Genetics.getAllAncestors (4 + extra) "child" inbredGraph ∅
      = Some (ancestors', visited) /\
      oget "grandfather" ancestors' = Some ["child"; "mother"; "father"].
Proof.
  assert (4 <= 4 + extra)%nat as Hle by lia.
  eexists. eexists.
  split; [apply (buildParentOf_mono _ 4 _ _ Hle); vm_compute; reflexivity|].
  split; [apply (getAncestors_mono _ _ 4 _ _ _ Hle); vm_compute; reflexivity|].
  split; [vm_compute; reflexivity|].
  split; [vm_compute; reflexivity|].
  split.
  - apply (nsteps_l _ _ _ "father"); [|apply nsteps_once];
      unfold parentEdge; vm_compute; repeat constructor.
  - eexists. eexists.
    split; [apply (getAllAncestors_mono _ 4 _ _ _ _ Hle); vm_compute; reflexivity|].
    vm_compute. reflexivity.
Qed.

End DynamicPaths.

(** * The path-based flow on the templates *)

Section TemplateBaselines.

Import Dynamic.
Local Open Scope Q_scope.

Lemma templatePathR_mono (fuel fuel' : nat) (relationship : RelationshipType) (r : Q) :
  (fuel <= fuel')%nat ->
  Templates.templatePathR fuel relationship = Some r ->
  Templates.templatePathR fuel' relationship = Some r.
Proof.
  intros Hle. unfold Templates.templatePathR.
  destruct (Templates.getSelectedPairIds relationship) as [id1 id2].
  destruct (Genetics.findAncestorPaths fuel id1 id2 _) as [paths|] eqn:E;
    [|discriminate].
  rewrite (findAncestorPaths_mono _ _ _ _ _ _ Hle E). tauto.
Qed.

(** C1 as stated fails: on the siblings template the paths found
    between child1 and child2 sum to 0.75, not to the baseline 0.5
    (each of the four grandparents is a common ancestor too), and for
    second-cousins the template is the first-cousins graph, so the sum
    is 0.125, not the baseline 0.03125. *)
Lemma C1_siblings_and_second_cousins_miss_the_baseline :
  (exists r, Templates.templatePathR 3 Siblings = Some r /\
             r == 0.75 /\
             ~ r == Genetics.BASE_COEFFICIENTS Siblings) /\
  (exists r, Templates.templatePathR 3 SecondCousins = Some r /\
             r == 0.125 /\
             ~ r == Genetics.BASE_COEFFICIENTS SecondCousins).
Proof.
  split; eexists; (split; [vm_compute; reflexivity|]);
    (split; [vm_compute; reflexivity|]);
    intros H; vm_compute in H; discriminate.
Qed.

(** What the path-based computation gives on every template.  On the
    static template graphs ([findAncestorPaths], then
    [coefficientOfRelationship] with no inbred ancestor) it gives 0.125
    where the cousins graph is handed out and 0.75 where the siblings
    graph is, and meets the baseline for first-cousins only.  On the
    base pedigrees ([calculateFromPedigree]) it gives 0.75 for siblings
    and half-siblings, 0.125 for first-cousins, 0.25 for
    double-first-cousins and avuncular, 0.015625 for second-cousins and
    0.5 on the fallback skeleton. *)
Lemma path_based_r_tables
    (extra : nat) (relationship : RelationshipType) (sex1 sex2 : Sex) :
  (exists r,
     Templates.templatePathR (3 + extra) relationship = Some r /\
     r == match relationship with
          | FirstCousins | DoubleFirstCousins | SecondCousins | ThirdCousins
          | FirstCousinsOnceRemoved => 0.125
          | _ => 0.75
          end /\
     (r == Genetics.BASE_COEFFICIENTS relationship <-> relationship = FirstCousins)) /\
  (exists result,
     calculateFromPedigree (4 + extra) (generateBasePedigree relationship sex1 sex2)
     = Some result /\
     coefficientOfRelationship result
     == match relationship with
        | Siblings | HalfSiblings => 0.75
        | FirstCousins => 0.125
        | DoubleFirstCousins | Avuncular => 0.25
        | SecondCousins => 0.015625
        | _ => 0.5
        end /\
     (coefficientOfRelationship result == Genetics.BASE_COEFFICIENTS relationship
      <-> In relationship [FirstCousins; DoubleFirstCousins; Avuncular; ParentChild])).
Proof.
  assert (3 <= 3 + extra)%nat as H3 by lia.
  assert (4 <= 4 + extra)%nat as H4 by lia.
  split.
  - destruct relationship; eexists;
      (split; [apply (templatePathR_mono 3 _ _ _ H3); vm_compute; reflexivity|]);
      (split; [vm_compute; reflexivity|]);
      (split; intros H;
       first [ reflexivity | discriminate H
             | vm_compute; reflexivity | vm_compute in H; discriminate H ]).
  - destruct relationship, sex1, sex2; eexists;
      (split; [apply (calculateFromPedigree_mono _ 4 _ _ H4); vm_compute; reflexivity|]);
      (split; [vm_compute; reflexivity|]);
      (split; intros H;
       first [ vm_compute; reflexivity | vm_compute in H; discriminate H
             | cbn; intuition congruence | cbn in H; intuition discriminate ]).
Qed.

(** C1 (as the source has it): for the first-cousins archetype the
    path-based computation returns exactly the documented baseline
    0.125, on the static template graph ([findAncestorPaths] for the
    selected pair, then [coefficientOfRelationship] with no inbred
    ancestor) and on the base pedigree ([calculateFromPedigree]) alike;
    on the base pedigrees the baseline 0.25 is met for
    double-first-cousins and avuncular as well, whatever the sexes of
    the two targets. *)
Theorem C1_first_cousins_meet_the_baseline (extra : nat) (sex1 sex2 : Sex) :
  (exists r,
     Templates.templatePathR (3 + extra) FirstCousins = Some r /\
     r == 0.125 /\ r == Genetics.BASE_COEFFICIENTS FirstCousins) /\
  (exists result,
     calculateFromPedigree (4 + extra) (generateBasePedigree FirstCousins sex1 sex2)
     = Some result /\
     coefficientOfRelationship result == 0.125 /\
     coefficientOfRelationship result == Genetics.BASE_COEFFICIENTS FirstCousins) /\
  (exists result,
     calculateFromPedigree (4 + extra) (generateBasePedigree DoubleFirstCousins sex1 sex2)
     = Some result /\
     coefficientOfRelationship result == 0.25 /\
     coefficientOfRelationship result == Genetics.BASE_COEFFICIENTS DoubleFirstCousins) /\
  (exists result,
     calculateFromPedigree (4 + extra) (generateBasePedigree Avuncular sex1 sex2)
     = Some result /\
     coefficientOfRelationship result == 0.25 /\
     coefficientOfRelationship result == Genetics.BASE_COEFFICIENTS Avuncular).
Proof.
  assert (3 <= 3 + extra)%nat as H3 by lia.
  assert (4 <= 4 + extra)%nat as H4 by lia.
  split; [|repeat split].
  - eexists. split; [apply (templatePathR_mono 3 _ _ _ H3); vm_compute; reflexivity|].
    split; vm_compute; reflexivity.
  - destruct sex1, sex2; eexists;
      (split; [apply (calculateFromPedigree_mono _ 4 _ _ H4); vm_compute; reflexivity|]);
      split; vm_compute; reflexivity.
  - destruct sex1, sex2; eexists;
      (split; [apply (calculateFromPedigree_mono _ 4 _ _ H4); vm_compute; reflexivity|]);
      split; vm_compute; reflexivity.
  - destruct sex1, sex2; eexists;
      (split; [apply (calculateFromPedigree_mono _ 4 _ _ H4); vm_compute; reflexivity|]);
      split; vm_compute; reflexivity.
Qed.

End TemplateBaselines.

(** * Further properties of the coefficient engine *)

Section EngineSums.

Import Genetics.
Local Open Scope Q_scope.

Lemma pow_half_add (a b : nat) :
  pow_half (Z.of_nat (a + b)) == pow_half (Z.of_nat a) * pow_half (Z.of_nat b).
Proof.
  unfold pow_half. rewrite Nat2Z.inj_add. apply Qpower_plus. discriminate.
Qed.

Lemma pow_half_pos (n : Z) : 0 < pow_half n.
Proof. unfold pow_half. apply Qpower_0_lt. reflexivity. Qed.

Lemma pow_half_le_1 (k : nat) : pow_half (Z.of_nat k) <= 1.
Proof.
  induction k as [|k IH]; [discriminate|].
  replace (S k) with (k + 1)%nat by lia. rewrite pow_half_add.
  assert (1 == 1 * 1) as -> by ring.
  apply Qmult_le_compat_nonneg.
  - split; [apply Qlt_le_weak, pow_half_pos | exact IH].
  - split; discriminate.
Qed.

(** The loops of the two path-based functions are sums of the
    contributions of the paths. *)
Lemma coefficientOfRelationship_sum paths ancestorInbreeding :
  coefficientOfRelationship paths ancestorInbreeding
  == Qsum (map (pathContribution ancestorInbreeding) paths).
Proof.
  unfold coefficientOfRelationship. cbv zeta.
  rewrite (fold_sum (pathContribution ancestorInbreeding)). ring.
Qed.

Lemma inbreedingCoefficient_sum paths ancestorInbreeding :
  inbreedingCoefficient paths ancestorInbreeding
  == Qsum (map (fun path => pathContribution ancestorInbreeding path * (1 # 2)) paths).
Proof.
  unfold inbreedingCoefficient. cbv zeta.
  rewrite (fold_sum
             (fun path =>
                pow_half (Z.of_nat (steps path) + 1)
                * (1 + js_or (default 0 (ancestorInbreeding !! commonAncestorId path)) 0))).
  rewrite Qplus_0_l. apply Qsum_map_ext. intros path. unfold pathContribution.
  assert (pow_half (Z.of_nat (steps path) + 1)
          == pow_half (Z.of_nat (steps path)) * (1 # 2)) as ->.
  { unfold pow_half. rewrite Qpower_plus by discriminate. reflexivity. }
  ring.
Qed.

(** X1: on the inputs on which the loops are exact, the inbreeding
    coefficient is half of the coefficient of relationship. *)
Theorem X1_inbreeding_is_half_of_relationship
    (paths : list AncestorPath) (ancestorInbreeding : gmap string Q) :
  exactInputs paths ancestorInbreeding ->
  inbreedingCoefficient paths ancestorInbreeding
  == coefficientOfRelationship paths ancestorInbreeding / 2.
Proof.
  intros _.
  rewrite inbreedingCoefficient_sum, coefficientOfRelationship_sum, Qsum_map_scale.
  unfold Qdiv. reflexivity.
Qed.

Lemma X1_witness :
  inbreedingCoefficient
    [ {| personIds := []; commonAncestorId := "gm"; steps := 4 |};
      {| personIds := []; commonAncestorId := "gf"; steps := 2 |} ]
    (<["gf" := 1 # 4]> ∅)
  == coefficientOfRelationship
       [ {| personIds := []; commonAncestorId := "gm"; steps := 4 |};
         {| personIds := []; commonAncestorId := "gf"; steps := 2 |} ]
       (<["gf" := 1 # 4]> ∅) / 2.
Proof.
  apply X1_inbreeding_is_half_of_relationship.
  split; [simpl; lia|]. split.
  - repeat (apply Forall_cons; split; [simpl; lia|]). apply Forall_nil_2.
  - apply map_Forall_insert_2; [|apply map_Forall_empty].
    split; [split; discriminate | exists 256%Z; reflexivity].
Defined.

(** X2: on the inputs on which the loop is exact, the coefficient of
    relationship does not depend on the order in which the paths are
    listed. *)
Theorem X2_relationship_ignores_path_order
    (paths paths' : list AncestorPath) (ancestorInbreeding : gmap string Q) :
  exactInputs paths ancestorInbreeding ->
  Permutation paths paths' ->
  coefficientOfRelationship paths ancestorInbreeding
  == coefficientOfRelationship paths' ancestorInbreeding.
Proof.
  intros _ Hperm. rewrite !coefficientOfRelationship_sum.
  apply Qsum_perm, Permutation_map, Hperm.
Qed.

Lemma X2_witness :
  coefficientOfRelationship
    [ {| personIds := []; commonAncestorId := "gm"; steps := 4 |};
      {| personIds := []; commonAncestorId := "gf"; steps := 2 |} ] ∅
  == coefficientOfRelationship
       [ {| personIds := []; commonAncestorId := "gf"; steps := 2 |};
         {| personIds := []; commonAncestorId := "gm"; steps := 4 |} ] ∅.
Proof.
  apply X2_relationship_ignores_path_order; [|apply perm_swap].
  split; [simpl; lia|]. split.
  - repeat (apply Forall_cons; split; [simpl; lia|]). apply Forall_nil_2.
  - apply map_Forall_empty.
Defined.

(** The loop of [getCompoundConsanguinityFactor] is the sum of the
    contributions of the factors. *)
Lemma compound_sum factors :
  getCompoundConsanguinityFactor factors == Qsum (map factorContribution factors).
Proof.
  unfold getCompoundConsanguinityFactor. cbv zeta.
  rewrite (fold_sum
             (fun factor =>
                getConsanguinityFactor (Some (factor_relationship factor))
                * js_or (GENERATION_MULTIPLIERS (factor_generation factor)) 1)).
  rewrite Qplus_0_l. apply Qsum_map_ext.
  intros [g r]. destruct g, r; vm_compute; reflexivity.
Qed.

Lemma factorContribution_bounds factor :
  (1 # 1024) <= factorContribution factor <= (1 # 4).
Proof.
  destruct factor as [g r]. destruct g, r; split; vm_compute; discriminate.
Qed.

(** X3: the compound consanguinity factor of two lists of factors put
    together is the sum of the two, and it does not depend on the order
    of the factors. *)
Theorem X3_compound_factor_is_a_sum (factors1 factors2 : list ConsanguinityFactor) :
  getCompoundConsanguinityFactor (factors1 ++ factors2)
  == getCompoundConsanguinityFactor factors1 + getCompoundConsanguinityFactor factors2 /\
  getCompoundConsanguinityFactor (factors2 ++ factors1)
  == getCompoundConsanguinityFactor (factors1 ++ factors2).
Proof.
  rewrite !compound_sum, !map_app, !Qsum_app. split; ring.
Qed.

Lemma compound_bounds (factors : list ConsanguinityFactor) :
  (1 # 1024) * inject_Z (Z.of_nat (length factors))
  <= getCompoundConsanguinityFactor factors
  <= (1 # 4) * inject_Z (Z.of_nat (length factors)).
Proof.
  rewrite compound_sum. apply Qsum_map_bounds.
  intros x _. apply factorContribution_bounds.
Qed.

Lemma compound_zero_iff (factors : list ConsanguinityFactor) :
  getCompoundConsanguinityFactor factors == 0 <-> factors = [].
Proof.
  split.
  - intros H0. destruct factors as [|f l]; [reflexivity|]. exfalso.
    destruct (compound_bounds (f :: l)) as [Hlo _]. rewrite H0 in Hlo.
    apply (Qle_not_lt _ _ Hlo).
    apply Qmult_lt_0_compat; [reflexivity|].
    unfold Qlt. simpl. lia.
  - intros ->. reflexivity.
Qed.

(** X4: every factor adds at least 1/1024 and at most 1/4, so the
    compound factor of [n] factors lies between n/1024 and n/4, and is
    0 for the empty list only. *)
Theorem X4_compound_factor_bounds (factors : list ConsanguinityFactor) :
  (1 # 1024) * inject_Z (Z.of_nat (length factors))
  <= getCompoundConsanguinityFactor factors
  <= (1 # 4) * inject_Z (Z.of_nat (length factors)) /\
  (getCompoundConsanguinityFactor factors == 0 <-> factors = []).
Proof.
  split; [apply compound_bounds | apply compound_zero_iff].
Qed.

Lemma BASE_COEFFICIENTS_pos relationship : 0 < BASE_COEFFICIENTS relationship.
Proof. destruct relationship; reflexivity. Qed.

(** X5: the scalar flow with any list of consanguinity factors: the
    baseline is the table entry, the adjusted r is at least the
    baseline and at most the baseline times 1 + n/4 for [n] factors,
    it is the baseline for the empty list only, the delta is the
    baseline times the compound factor, F is half of r and the gene
    overlap is r. *)
Theorem X5_scalar_flow_with_compound_factors
    (person1 person2 : Person) (relationship : RelationshipType)
    (factors : list ConsanguinityFactor) :
  let result := calculateProbabilities person1 person2 relationship
                  (getCompoundConsanguinityFactor factors) in
  baselineR result = BASE_COEFFICIENTS relationship /\
  baselineR result <= coefficientOfRelationshipOf result
  <= baselineR result * (1 + (1 # 4) * inject_Z (Z.of_nat (length factors))) /\
  (coefficientOfRelationshipOf result == baselineR result <-> factors = []) /\
  deltaFromBaseline result
  == baselineR result * getCompoundConsanguinityFactor factors /\
  inbreedingCoefficientOfResult result == coefficientOfRelationshipOf result / 2 /\
  geneOverlapProbabilityOf result = coefficientOfRelationshipOf result.
Proof.
  cbv zeta. unfold calculateProbabilities. cbv zeta. simpl.
  destruct (compound_bounds factors) as [Hlo Hhi].
  pose proof (compound_zero_iff factors) as Hzero.
  pose proof (BASE_COEFFICIENTS_pos relationship) as Hpos.
  set (b := BASE_COEFFICIENTS relationship) in *.
  set (c := getCompoundConsanguinityFactor factors) in *.
  assert (0 <= c) as Hc.
  { eapply Qle_trans; [|exact Hlo].
    apply Qmult_le_0_compat; [discriminate|]. unfold Qle. simpl. lia. }
  split; [reflexivity|]. split; [split|]; [| |split; [|split; [|split]]].
  - assert (b == b * 1) as E by ring. rewrite E at 1.
    apply Qmult_le_l; [exact Hpos|].
    assert (1 == 1 + 0) as E1 by ring. rewrite E1 at 1.
    apply Qplus_le_r, Hc.
  - apply Qmult_le_l; [exact Hpos|]. apply Qplus_le_r, Hhi.
  - rewrite <- Hzero. split; intros H.
    + assert (b * c == 0) as Hbc.
      { assert (b * c == b * (1 + c) - b) as -> by ring. rewrite H. ring. }
      apply Qmult_integral in Hbc as [Hb0 | Hc0]; [|exact Hc0].
      rewrite Hb0 in Hpos. discriminate.
    + rewrite H. ring.
  - ring.
  - reflexivity.
  - reflexivity.
Qed.

(** X6: [yLinkedCoefficient] never returns [null]; it returns 1
    exactly when both persons are male and the relationship is one of
    parent-child, siblings, grandparent-grandchild, avuncular and
    first-cousins, and 0 in every other case. *)
Theorem X6_yLinked_is_one_on_male_patrilineal_pairs_only
    (person1 person2 : Person) (relationship : RelationshipType) :
  (yLinkedCoefficient person1 person2 relationship = Some 1 \/
   yLinkedCoefficient person1 person2 relationship = Some 0) /\
  (yLinkedCoefficient person1 person2 relationship = Some 1 <->
   sex person1 = M /\ sex person2 = M /\
   In relationship
      [ParentChild; Siblings; GrandparentGrandchild; Avuncular; FirstCousins]).
Proof.
  unfold yLinkedCoefficient.
  destruct (sex person1), (sex person2), relationship; simpl;
    (split; [first [left; reflexivity | right; reflexivity]|]);
    (split; [intros H; first [discriminate H | intuition tauto | intuition congruence]
            | intros (H1 & H2 & H3);
              first [reflexivity | discriminate H1 | discriminate H2
                    | exfalso; intuition discriminate]]).
Qed.

(** X7: [xLinkedCoefficient] never returns [null] on the eleven
    relationship types, and the value lies between 0 and 1. *)
Theorem X7_xLinked_is_total_and_in_range
    (person1 person2 : Person) (relationship : RelationshipType) :
  exists x, xLinkedCoefficient person1 person2 relationship = Some x /\
            0 <= x <= 1.
Proof.
  unfold xLinkedCoefficient.
  destruct relationship, (sex person1), (sex person2); simpl;
    eexists; (split; [reflexivity | split; discriminate]).
Qed.

(** X8: unless the relationship is one of the three lineal ones,
    [xLinkedCoefficient] does not change when the two persons are
    exchanged. *)
Theorem X8_xLinked_is_symmetric_off_the_direct_line
    (person1 person2 : Person) (relationship : RelationshipType) :
  ~ In relationship [ParentChild; GrandparentGrandchild; GreatGrandparent] ->
  xLinkedCoefficient person1 person2 relationship
  = xLinkedCoefficient person2 person1 relationship.
Proof.
  unfold xLinkedCoefficient. intros Hnot.
  destruct relationship, (sex person1), (sex person2); simpl; try reflexivity;
    exfalso; apply Hnot; simpl; tauto.
Qed.

Lemma X8_witness :
  xLinkedCoefficient
    (Templates.createPerson "a" "A" M 0 None None)
    (Templates.createPerson "b" "B" F 0 None None)
    Avuncular
  = xLinkedCoefficient
      (Templates.createPerson "b" "B" F 0 None None)
      (Templates.createPerson "a" "A" M 0 None None)
      Avuncular.
Proof.
  apply X8_xLinked_is_symmetric_off_the_direct_line.
  simpl. intros [H | [H | [H | H]]]; try discriminate H. exact H.
Defined.

End EngineSums.

(** * Further properties of the ancestor-path finder *)

Section OrderedMaps.

Context {V : Type}.
Implicit Types (m : omap V) (k : string) (v : V).

Lemma oget_oset_eq m k v : oget k (oset k v m) = Some v.
Proof.
  induction m as [|[k' v'] m IH]; simpl.
  - rewrite String.eqb_refl. reflexivity.
  - destruct (String.eqb k k') eqn:E; simpl; rewrite ?String.eqb_refl, ?E; auto.
Qed.

Lemma oget_oset_ne m k k' v : k <> k' -> oget k' (oset k v m) = oget k' m.
Proof.
  intros Hne. induction m as [|[k0 v0] m IH]; simpl.
  - destruct (String.eqb_spec k' k); [congruence | reflexivity].
  - destruct (String.eqb_spec k k0) as [->|Hk]; simpl.
    + destruct (String.eqb_spec k' k0); [congruence | reflexivity].
    + destruct (String.eqb_spec k' k0); [reflexivity | exact IH].
Qed.

Lemma oget_Some_In m k v : oget k m = Some v -> In (k, v) m.
Proof.
  induction m as [|[k' v'] m IH]; simpl; [discriminate|].
  destruct (String.eqb_spec k k') as [->|Hne].
  - intros [= ->]. left. reflexivity.
  - intros H. right. apply IH, H.
Qed.

Lemma oget_None_keys m k : oget k m = None -> ~ In k (map fst m).
Proof.
  induction m as [|[k' v'] m IH]; simpl; [tauto|].
  destruct (String.eqb_spec k k') as [->|Hne]; [discriminate|].
  intros H [Hk | Hk]; [congruence | exact (IH H Hk)].
Qed.

Lemma oset_Forall (P : string * V -> Prop) m k v :
  Forall P m -> P (k, v) -> Forall P (oset k v m).
Proof.
  intros Hm Hkv. induction Hm as [|[k' v'] m Hx Hm IH]; simpl.
  - constructor; [exact Hkv | constructor].
  - destruct (String.eqb k k'); constructor; assumption.
Qed.

Lemma oset_keys_incl m k v x :
  In x (map fst (oset k v m)) -> x = k \/ In x (map fst m).
Proof.
  induction m as [|[k' v'] m IH]; simpl.
  - intros [<- | []]. left. reflexivity.
  - destruct (String.eqb_spec k k') as [->|Hne]; simpl.
    + tauto.
    + intros [<- | H]; [tauto|]. destruct (IH H); tauto.
Qed.

(** [set] keeps the keys of an ordered map distinct. *)
Lemma oset_NoDup_keys m k v :
  NoDup (map fst m) -> NoDup (map fst (oset k v m)).
Proof.
  induction m as [|[k' v'] m IH]; simpl; intros Hnd.
  - constructor; [apply not_elem_of_nil | constructor].
  - apply NoDup_cons in Hnd as [Hnotin Hnd].
    destruct (String.eqb_spec k k') as [->|Hne]; simpl.
    + apply NoDup_cons. split; assumption.
    + apply NoDup_cons. split; [|apply IH, Hnd].
      rewrite list_elem_of_In. intros Hin.
      apply oset_keys_incl in Hin as [-> | Hin]; [congruence|].
      apply Hnotin, list_elem_of_In, Hin.
Qed.

End OrderedMaps.

Section ForEachPartial.

Import Genetics.
Context {St A : Type}.

(** What the body keeps, the loop keeps. *)
Lemma for_each_preserves (I : St -> Prop) (body : St -> A -> option St) (l : list A) :
  (forall s a s', I s -> body s a = Some s' -> I s') ->
  forall s s', I s -> for_each body l s = Some s' -> I s'.
Proof.
  intros Hbody. induction l as [|a l IH]; intros s s' Hs; simpl.
  - intros [= <-]. exact Hs.
  - destruct (body s a) as [s1|] eqn:E; [|discriminate].
    apply IH. eapply Hbody; eassumption.
Qed.

Lemma fold_left_preserves {B} (I : St -> Prop) (f : St -> B -> St) (l : list B) :
  (forall s b, I s -> In b l -> I (f s b)) ->
  forall s, I s -> I (fold_left f l s).
Proof.
  induction l as [|b l IH]; intros Hf s Hs; simpl; [exact Hs|].
  apply IH; [|apply Hf; [exact Hs | left; reflexivity]].
  intros s0 b0 Hs0 Hb0. apply Hf; [exact Hs0 | right; exact Hb0].
Qed.

End ForEachPartial.

Section PathShape.

Import Genetics.
Implicit Types (graph : FamilyGraph) (visited : gset string).

(** Every path that [getAllAncestors] records starts at the person
    asked for, and no ancestor is recorded twice. *)
Lemma getAllAncestors_entries graph fuel personId visited res :
  getAllAncestors fuel personId graph visited = Some res ->
  Forall (fun kv : string * list string => exists rest, kv.2 = personId :: rest) res.1
  /\ NoDup (map fst res.1).
Proof.
  destruct fuel as [|fuel]; [discriminate|]. simpl.
  destruct (decide (personId ∈ visited)).
  { intros [= <-]. split; constructor. }
  destruct (persons graph !! personId) as [person|].
  2:{ intros [= <-]. split; constructor. }
  apply (for_each_preserves
           (fun st : omap (list string) * gset string =>
              Forall (fun kv : string * list string => exists rest, kv.2 = personId :: rest) st.1
              /\ NoDup (map fst st.1))).
  - intros [ancestors v] parent st [HF HN]. simpl in HF, HN.
    destruct (getAllAncestors fuel parent graph v) as [[grand v']|]; [|discriminate].
    intros [= <-]. simpl.
    apply (fold_left_preserves
             (fun anc : omap (list string) =>
                Forall (fun kv : string * list string => exists rest, kv.2 = personId :: rest) anc
                /\ NoDup (map fst anc))).
    + intros anc [grandId path] [HF' HN'] _. split.
      * apply oset_Forall; [exact HF' | simpl; eauto].
      * apply oset_NoDup_keys, HN'.
    + split.
      * apply oset_Forall; [exact HF | simpl; eauto].
      * apply oset_NoDup_keys, HN.
  - simpl. split; constructor.
Qed.

(** The path record that [findAncestorPaths] builds for one common
    ancestor. *)
Lemma emitted_path_shape (person1Id person2Id ancestorId : string)
    (rest1 rest2 : list string) :
  let path1 := person1Id :: rest1 in
  let path2 := person2Id :: rest2 in
  let personIds := path1 ++ ancestorId :: rev path2 in
  2 <= length path1 + length path2 /\
  length personIds = S (length path1 + length path2) /\
  head personIds = Some person1Id /\
  last personIds = Some person2Id /\
  In ancestorId personIds.
Proof.
  cbv zeta. split; [simpl; lia|]. split.
  { rewrite length_app. simpl. rewrite length_app, length_rev. simpl. lia. }
  split; [reflexivity|]. split.
  - simpl rev. change (person1Id :: rest1) with ([person1Id] ++ rest1).
    replace (([person1Id] ++ rest1) ++ ancestorId :: rev rest2 ++ [person2Id])
      with ((([person1Id] ++ rest1) ++ ancestorId :: rev rest2) ++ [person2Id])
      by (rewrite <- !app_assoc; reflexivity).
    apply last_snoc.
  - apply in_or_app. right. left. reflexivity.
Qed.

Lemma emitted_paths_distinct (ancestors2 : omap (list string)) :
  forall (ancestors1 : omap (list string)) (acc : list AncestorPath),
  NoDup (map fst ancestors1) ->
  NoDup (map commonAncestorId acc) ->
  (forall x, In x (map commonAncestorId acc) -> ~ In x (map fst ancestors1)) ->
  NoDup (map commonAncestorId
           (fold_left
              (fun paths '(ancestorId, path1) =>
                 match oget ancestorId ancestors2 with
                 | Some path2 =>
                     paths ++ [ {| personIds := path1 ++ ancestorId :: rev path2;
                                   commonAncestorId := ancestorId;
                                   steps := length path1 + length path2 |} ]
                 | None => paths
                 end)
              ancestors1 acc)).
Proof.
  induction ancestors1 as [|[k path1] l IH]; intros acc Hkeys Hacc Hfresh; simpl;
    [exact Hacc|].
  simpl in Hkeys. apply NoDup_cons in Hkeys as [Hk Hl].
  rewrite list_elem_of_In in Hk.
  destruct (oget k ancestors2) as [path2|].
  - apply IH; [exact Hl | |].
    + rewrite map_app. simpl. apply NoDup_app. split; [exact Hacc|].
      split; [|apply NoDup_singleton].
      intros x Hx Hx'. apply list_elem_of_In in Hx.
      apply list_elem_of_singleton in Hx'. subst x.
      apply (Hfresh k Hx). left. reflexivity.
    + intros x. rewrite map_app, in_app_iff. simpl.
      intros [Hx | [<- | []]]; [|exact Hk].
      intros Hin. apply (Hfresh x Hx). right. exact Hin.
  - apply IH; [exact Hl | exact Hacc |].
    intros x Hx Hin. apply (Hfresh x Hx). right. exact Hin.
Qed.

(** X9: on every graph and for every two ids [findAncestorPaths]
    returns, once the fuel exceeds the number of persons; no common
    ancestor gets two paths; and every path has at least 2 steps, lists
    one id more than it has steps, starts at the first person, ends at
    the second and passes through its common ancestor. *)
Theorem X9_found_paths_are_well_shaped
    (graph : FamilyGraph) (person1Id person2Id : string) (extra : nat) :
  exists paths,
    findAncestorPaths (S (size (persons graph)) + extra) person1Id person2Id graph
    = Some paths /\
    NoDup (map commonAncestorId paths) /\
    Forall (fun path =>
              2 <= steps path /\
              length (personIds path) = S (steps path) /\
              head (personIds path) = Some person1Id /\
              last (personIds path) = Some person2Id /\
              In (commonAncestorId path) (personIds path))
           paths.
Proof.
  unfold findAncestorPaths.
  assert (forall personId,
            exists res, getAllAncestors (S (size (persons graph)) + extra)
                          personId graph ∅ = Some res) as Hret.
  { intros personId.
    destruct (getAllAncestors_returns graph (S (size (persons graph)) + extra)
                personId ∅) as (res & Hres & _); [|eauto].
    rewrite difference_empty_L, size_dom. lia. }
  destruct (Hret person1Id) as ([a1 v1] & H1).
  destruct (Hret person2Id) as ([a2 v2] & H2).
  rewrite H1, H2. eexists. split; [reflexivity|].
  apply getAllAncestors_entries in H1 as [HF1 HN1].
  apply getAllAncestors_entries in H2 as [HF2 _]. simpl in *.
  split.
  - apply emitted_paths_distinct; [exact HN1 | constructor | intros x []].
  - apply (fold_left_preserves (Forall _)); [|constructor].
    intros acc [k path1] Hacc Hin.
    destruct (oget k a2) as [path2|] eqn:E; [|exact Hacc].
    apply Forall_app. split; [exact Hacc|]. constructor; [|constructor].
    rewrite Forall_forall in HF1, HF2.
    destruct (HF1 (k, path1)) as [rest1 E1]; [apply list_elem_of_In, Hin|].
    destruct (HF2 (k, path2)) as [rest2 E2];
      [apply list_elem_of_In, oget_Some_In, E|].
    simpl in E1, E2. subst path1 path2.
    apply emitted_path_shape.
Qed.

End PathShape.

(** * Further properties of the merge map and of the editor *)

Section EditorExtras.

Import Dynamic.
Implicit Types (pedigree : DynamicPedigree) (merges : gmap string string).

(** X10: every id met on the way from an id to its canonical id
    resolves to the same canonical id; in particular resolving a
    canonical id gives the id itself. *)
Theorem X10_resolution_is_the_same_along_the_chain
    (merges : gmap string string) (fuel : nat) (id x r : string) :
  resolveId fuel id merges = Some r ->
  reaches merges id x ->
  resolveId fuel x merges = Some r /\ resolveId fuel r merges = Some r.
Proof.
  intros Hr Hx. split.
  - revert fuel Hr. induction Hx as [a | a b c Hab _ IH]; intros fuel Hr;
      [exact Hr|].
    apply IH. unfold mergeStep in Hab.
    destruct fuel as [|fuel]; simpl in Hr; rewrite Hab in Hr; [discriminate|].
    apply (resolveId_mono _ fuel); [lia | exact Hr].
  - apply resolveId_unmapped. apply resolveId_sound in Hr. tauto.
Qed.

Lemma X10_witness :
  resolveId 2 "b" chainMap = Some "c" /\ resolveId 2 "c" chainMap = Some "c".
Proof.
  apply (X10_resolution_is_the_same_along_the_chain chainMap 2 "a" "b" "c").
  - reflexivity.
  - apply rtc_once. reflexivity.
Defined.

Lemma declareAll_frame (pedigree : DynamicPedigree) (decls : list NodeRelationship) :
  ped_persons (declareAll pedigree decls) = ped_persons pedigree /\
  ped_edges (declareAll pedigree decls) = ped_edges pedigree /\
  targetPair (declareAll pedigree decls) = targetPair pedigree /\
  definedRelationships (declareAll pedigree decls)
  = definedRelationships pedigree ++ decls.
Proof.
  unfold declareAll. revert pedigree.
  induction decls as [|[a b t] decls IH]; intros pedigree; simpl.
  - rewrite app_nil_r. tauto.
  - destruct (IH (declare pedigree {| person1Id := a; person2Id := b; type := t |}))
      as (Hp & He & Ht & Hd).
    rewrite Hp, He, Ht, Hd. simpl. rewrite <- app_assoc. tauto.
Qed.

(** X11: whatever is declared, and however often, the persons, the
    edges and the target pair stay as they were, and the log of
    declarations is the old log followed by the declarations in the
    order they were made. *)
Theorem X11_declarations_only_touch_the_log_and_the_merge_map
    (pedigree : DynamicPedigree) (decls : list NodeRelationship) :
  ped_persons (declareAll pedigree decls) = ped_persons pedigree /\
  ped_edges (declareAll pedigree decls) = ped_edges pedigree /\
  targetPair (declareAll pedigree decls) = targetPair pedigree /\
  definedRelationships (declareAll pedigree decls)
  = definedRelationships pedigree ++ decls.
Proof. apply declareAll_frame. Qed.

Lemma findAllPaths_depends_on pedigree pedigree' fuel id1 id2 :
  ped_edges pedigree' = ped_edges pedigree ->
  merges pedigree' = merges pedigree ->
  findAllPaths fuel id1 id2 pedigree' = findAllPaths fuel id1 id2 pedigree.
Proof.
  intros He Hm. unfold findAllPaths, buildParentOf. rewrite He, Hm. reflexivity.
Qed.

Lemma calculateFromPedigree_depends_on pedigree pedigree' fuel :
  ped_edges pedigree' = ped_edges pedigree ->
  merges pedigree' = merges pedigree ->
  targetPair pedigree' = targetPair pedigree ->
  calculateFromPedigree fuel pedigree' = calculateFromPedigree fuel pedigree.
Proof.
  intros He Hm Ht. unfold calculateFromPedigree. rewrite Ht.
  destruct (targetPair pedigree) as [id1 id2].
  rewrite (findAllPaths_depends_on pedigree pedigree' _ _ _ He Hm). reflexivity.
Qed.

(** X12: declarations other than siblings and half-siblings (spouse,
    first-cousins, second-cousins, unrelated) leave the merge map as it
    was, and with it the result of [calculateFromPedigree]. *)
Theorem X12_cousin_and_spouse_declarations_do_not_change_r
    (pedigree : DynamicPedigree) (decls : list NodeRelationship) (fuel : nat) :
  Forall (fun decl => mergesParents (type decl) = false) decls ->
  merges (declareAll pedigree decls) = merges pedigree /\
  calculateFromPedigree fuel (declareAll pedigree decls)
  = calculateFromPedigree fuel pedigree.
Proof.
  intros Hall.
  assert (merges (declareAll pedigree decls) = merges pedigree) as Hm.
  { unfold declareAll. revert pedigree.
    induction Hall as [|[a b t] decls Ht _ IH]; intros pedigree; simpl;
      [reflexivity|].
    rewrite IH. simpl in Ht. destruct t; simpl; try reflexivity; discriminate. }
  split; [exact Hm|].
  destruct (declareAll_frame pedigree decls) as (_ & He & Ht & _).
  apply calculateFromPedigree_depends_on; assumption.
Qed.

Lemma X12_witness :
  merges (declareAll cousinsBase
            [ {| person1Id := "p1"; person2Id := "p2"; type := DeclFirstCousins |};
              {| person1Id := "father1"; person2Id := "mother1"; type := DeclSpouse |} ])
  = merges cousinsBase /\
  calculateFromPedigree 4
    (declareAll cousinsBase
       [ {| person1Id := "p1"; person2Id := "p2"; type := DeclFirstCousins |};
         {| person1Id := "father1"; person2Id := "mother1"; type := DeclSpouse |} ])
  = calculateFromPedigree 4 cousinsBase.
Proof.
  apply X12_cousin_and_spouse_declarations_do_not_change_r.
  repeat constructor.
Defined.

Lemma findParentOfSex_In pedigree s parents p :
  findParentOfSex pedigree s parents = Some p -> In p parents.
Proof. unfold findParentOfSex. intros H. apply find_some in H. tauto. Qed.

(** [mergeInto] either leaves the map alone or adds one entry from a
    non-empty id to a different non-empty id. *)
Lemma mergeInto_cases (keeper loser : option string) merges :
  mergeInto keeper loser merges = merges \/
  exists a b, keeper = Some a /\ loser = Some b /\ a <> b /\
              mergeInto keeper loser merges = <[b := a]> merges.
Proof.
  unfold mergeInto. destruct keeper as [a|], loser as [b|]; try tauto.
  destruct (truthy a), (truthy b); simpl; try tauto.
  destruct (String.eqb_spec a b); simpl; [tauto|].
  right. exists a, b. tauto.
Qed.

Lemma mergeInto_keeps_keys (keeper loser : option string) merges k :
  mergeInto keeper loser merges !! k = None -> merges !! k = None.
Proof.
  destruct (mergeInto_cases keeper loser merges) as [-> | (a & b & _ & _ & _ & ->)];
    [tauto|].
  rewrite lookup_insert_None. tauto.
Qed.

Lemma mergeInto_acyclic (keeper loser : option string) merges :
  acyclic merges ->
  (forall a, keeper = Some a -> merges !! a = None) ->
  acyclic (mergeInto keeper loser merges).
Proof.
  intros Hac Hkeep.
  destruct (mergeInto_cases keeper loser merges) as [-> | (a & b & Ha & _ & Hne & ->)];
    [exact Hac|].
  apply acyclic_insert; [exact Hac|].
  intros Hr. apply reaches_unmapped in Hr; [contradiction | apply Hkeep, Ha].
Qed.

Lemma parents_of_opposite_sex_differ pedigree parents parents' p q :
  findParentOfSex pedigree M parents = Some p ->
  findParentOfSex pedigree F parents' = Some q -> p <> q.
Proof.
  intros Hp Hq ->.
  apply findParentOfSex_Some in Hp as (x & Hx & Hsx).
  apply findParentOfSex_Some in Hq as (y & Hy & Hsy). congruence.
Qed.

(** The merge map after a declaration, by declaration type. *)
Lemma addRelationship_merges pedigree idA idB t :
  merges (addRelationship pedigree idA idB t)
  = match t with
    | DeclSiblings =>
        mergeInto (findParentOfSex pedigree F (parentsOfPerson pedigree idA))
                  (findParentOfSex pedigree F (parentsOfPerson pedigree idB))
          (mergeInto (findParentOfSex pedigree M (parentsOfPerson pedigree idA))
                     (findParentOfSex pedigree M (parentsOfPerson pedigree idB))
             (merges pedigree))
    | DeclHalfSiblings =>
        mergeInto (findParentOfSex pedigree M (parentsOfPerson pedigree idA))
                  (findParentOfSex pedigree M (parentsOfPerson pedigree idB))
          (merges pedigree)
    | _ => merges pedigree
    end.
Proof. reflexivity. Qed.

(** A declaration keeps the merge map acyclic when the parents found
    for the first person are not merged away themselves. *)
Lemma addRelationship_acyclic pedigree idA idB t :
  acyclic (merges pedigree) ->
  (forall s p, findParentOfSex pedigree s (parentsOfPerson pedigree idA) = Some p ->
               merges pedigree !! p = None) ->
  acyclic (merges (addRelationship pedigree idA idB t)).
Proof.
  intros Hac Hkeep. rewrite addRelationship_merges.
  destruct t; try exact Hac.
  - apply mergeInto_acyclic.
    + apply mergeInto_acyclic; [exact Hac | apply (Hkeep M)].
    + intros mo Hmo.
      destruct (mergeInto_cases
                  (findParentOfSex pedigree M (parentsOfPerson pedigree idA))
                  (findParentOfSex pedigree M (parentsOfPerson pedigree idB))
                  (merges pedigree)) as [-> | (a & b & _ & Hb & _ & ->)].
      * apply (Hkeep F), Hmo.
      * rewrite lookup_insert_ne; [apply (Hkeep F), Hmo|].
        eapply parents_of_opposite_sex_differ; eassumption.
  - apply mergeInto_acyclic; [exact Hac | apply (Hkeep M)].
Qed.

(** X13: an entry of the merge map after a declaration is either an
    entry that was there before, or it maps a parent of the second
    person to a different parent of the first person, both of them
    persons of the store and of the same sex. *)
Theorem X13_merges_join_like_sexed_parents_only
    (pedigree : DynamicPedigree) (idA idB : string) (t : NodeRelationshipType)
    (k v : string) :
  merges (addRelationship pedigree idA idB t) !! k = Some v ->
  merges pedigree !! k = Some v \/
  (k <> v /\
   In k (parentsOfPerson pedigree idB) /\ In v (parentsOfPerson pedigree idA) /\
   exists pk pv, ped_persons pedigree !! k = Some pk /\
                 ped_persons pedigree !! v = Some pv /\ sex pk = sex pv).
Proof.
  assert (forall s merges,
            mergeInto (findParentOfSex pedigree s (parentsOfPerson pedigree idA))
                      (findParentOfSex pedigree s (parentsOfPerson pedigree idB))
                      merges !! k = Some v ->
            merges !! k = Some v \/
            (k <> v /\
             In k (parentsOfPerson pedigree idB) /\ In v (parentsOfPerson pedigree idA) /\
             exists pk pv, ped_persons pedigree !! k = Some pk /\
                           ped_persons pedigree !! v = Some pv /\ sex pk = sex pv))
    as Hstep.
  { intros s m.
    destruct (mergeInto_cases
                (findParentOfSex pedigree s (parentsOfPerson pedigree idA))
                (findParentOfSex pedigree s (parentsOfPerson pedigree idB)) m)
      as [-> | (a & b & Ha & Hb & Hne & ->)]; [tauto|].
    rewrite lookup_insert_Some. intros [[<- <-] | [_ H]]; [|tauto].
    right. split; [congruence|].
    split; [eapply findParentOfSex_In, Hb|].
    split; [eapply findParentOfSex_In, Ha|].
    apply findParentOfSex_Some in Ha as (pa & Hpa & Hsa).
    apply findParentOfSex_Some in Hb as (pb & Hpb & Hsb).
    exists pb, pa. repeat split; congruence. }
  rewrite addRelationship_merges. destruct t; try tauto.
  - intros H. apply Hstep in H as [H | H]; [|tauto]. apply Hstep in H. exact H.
  - apply Hstep.
Qed.

Lemma X13_witness :
  merges cousinsBase !! "father2" = Some "father1" \/
  ("father2" <> "father1" /\
   In "father2" (parentsOfPerson cousinsBase "p2") /\
   In "father1" (parentsOfPerson cousinsBase "p1") /\
   exists pk pv, ped_persons cousinsBase !! "father2" = Some pk /\
                 ped_persons cousinsBase !! "father1" = Some pv /\ sex pk = sex pv).
Proof.
  apply (X13_merges_join_like_sexed_parents_only cousinsBase "p1" "p2" DeclSiblings).
  vm_compute. reflexivity.
Defined.

(** X14: a person hidden by the merge map stays hidden: after any
    declaration the visible persons are among those visible before,
    unchanged. *)
Theorem X14_declarations_never_unhide_a_person
    (pedigree : DynamicPedigree) (idA idB : string) (t : NodeRelationshipType) :
  visiblePersons (addRelationship pedigree idA idB t) ⊆ visiblePersons pedigree.
Proof.
  apply map_subseteq_spec. intros id person. unfold visiblePersons.
  rewrite !map_lookup_filter_Some. intros [Hp Hm]. split; [exact Hp|].
  change (merges (addRelationship pedigree idA idB t) !! id = None) in Hm.
  change (merges pedigree !! id = None).
  rewrite addRelationship_merges in Hm.
  destruct t; try exact Hm; repeat apply mergeInto_keeps_keys in Hm; exact Hm.
Qed.

(** X15: when the merge map is acyclic and the parents found for the
    first person are not merged away, the map is acyclic after the
    declaration, whatever its type, and the visible graph is produced. *)
Theorem X15_declaration_on_unmerged_parents_keeps_the_map_acyclic
    (pedigree : DynamicPedigree) (idA idB : string) (t : NodeRelationshipType) :
  acyclic (merges pedigree) ->
  (forall s p, findParentOfSex pedigree s (parentsOfPerson pedigree idA) = Some p ->
               merges pedigree !! p = None) ->
  acyclic (merges (addRelationship pedigree idA idB t)) /\
  exists graph,
    pedigreeToGraph (size (merges (addRelationship pedigree idA idB t)))
      (addRelationship pedigree idA idB t) = Some graph.
Proof.
  intros Hac Hkeep.
  pose proof (addRelationship_acyclic pedigree idA idB t Hac Hkeep) as Hac'.
  split; [exact Hac'|].
  destruct (pedigreeToGraph_returns _ Hac') as (graph & Hg & _). eauto.
Qed.

Lemma X15_witness :
  acyclic (merges (addRelationship cousinsBase "p1" "p2" DeclSiblings)) /\
  exists graph,
    pedigreeToGraph (size (merges (addRelationship cousinsBase "p1" "p2" DeclSiblings)))
      (addRelationship cousinsBase "p1" "p2" DeclSiblings) = Some graph.
Proof.
  apply X15_declaration_on_unmerged_parents_keeps_the_map_acyclic.
  - apply acyclicb_sound. vm_compute. reflexivity.
  - intros s p _. reflexivity.
Defined.

(** X16: declaring siblings between two persons with distinct fathers
    and distinct mothers (non-empty ids), on an acyclic merge map in
    which the first person's parents are not merged away: the second
    person's father resolves to the first person's father and the
    second mother to the first mother, which resolve to themselves;
    the visible graph is produced, shows the first person's father and
    mother and no longer shows the second person's. *)
Theorem X16_siblings_share_one_father_and_one_mother
    (pedigree : DynamicPedigree) (idA idB father1 father2 mother1 mother2 : string) :
  findParentOfSex pedigree M (parentsOfPerson pedigree idA) = Some father1 ->
  findParentOfSex pedigree M (parentsOfPerson pedigree idB) = Some father2 ->
  findParentOfSex pedigree F (parentsOfPerson pedigree idA) = Some mother1 ->
  findParentOfSex pedigree F (parentsOfPerson pedigree idB) = Some mother2 ->
  father1 <> father2 -> mother1 <> mother2 ->
  truthy father1 = true -> truthy father2 = true ->
  truthy mother1 = true -> truthy mother2 = true ->
  acyclic (merges pedigree) ->
  merges pedigree !! father1 = None -> merges pedigree !! mother1 = None ->
  let pedigree' := addRelationship pedigree idA idB DeclSiblings in
  (forall fuel,
     resolveId (S fuel) father2 (merges pedigree') = Some father1 /\
     resolveId (S fuel) mother2 (merges pedigree') = Some mother1 /\
     resolveId fuel father1 (merges pedigree') = Some father1 /\
     resolveId fuel mother1 (merges pedigree') = Some mother1) /\
  exists graph,
    pedigreeToGraph (size (merges pedigree')) pedigree' = Some graph /\
    persons graph !! father2 = None /\ persons graph !! mother2 = None /\
    is_Some (persons graph !! father1) /\ is_Some (persons graph !! mother1).
Proof.
  intros Hf1 Hf2 Hm1 Hm2 Hfne Hmne Tf1 Tf2 Tm1 Tm2 Hac Hkf Hkm pedigree'.
  assert (merges pedigree'
          = <[mother2 := mother1]> (<[father2 := father1]> (merges pedigree))) as Hm.
  { unfold pedigree'. rewrite addRelationship_merges, Hf1, Hf2, Hm1, Hm2.
    rewrite (mergeInto_distinct father1 father2) by assumption.
    apply mergeInto_distinct; assumption. }
  assert (father1 <> mother2) as Hfm2
    by (eapply parents_of_opposite_sex_differ; eassumption).
  assert (father2 <> mother1) as Hf2m
    by (eapply parents_of_opposite_sex_differ; eassumption).
  assert (father2 <> mother2) as Hf2m2
    by (eapply parents_of_opposite_sex_differ; eassumption).
  assert (merges pedigree' !! father1 = None) as Lf1.
  { rewrite Hm, !lookup_insert_ne by congruence. exact Hkf. }
  assert (merges pedigree' !! mother1 = None) as Lm1.
  { rewrite Hm, !lookup_insert_ne by congruence. exact Hkm. }
  assert (merges pedigree' !! father2 = Some father1) as Lf2.
  { rewrite Hm, lookup_insert_ne by congruence. apply lookup_insert_eq. }
  assert (merges pedigree' !! mother2 = Some mother1) as Lm2.
  { rewrite Hm. apply lookup_insert_eq. }
  split.
  - intros fuel.
    rewrite (resolveId_mapped _ _ _ _ Lf2), (resolveId_mapped _ _ _ _ Lm2).
    rewrite !resolveId_unmapped by assumption. tauto.
  - assert (acyclic (merges pedigree')) as Hac'.
    { apply addRelationship_acyclic; [exact Hac|].
      intros [|] p; rewrite ?Hf1, ?Hm1; intros [= <-]; assumption. }
    destruct (pedigreeToGraph_returns _ Hac') as (graph & Hg & Hp).
    exists graph. split; [exact Hg|]. rewrite Hp.
    apply findParentOfSex_Some in Hf1 as (pf1 & Hpf1 & _).
    apply findParentOfSex_Some in Hm1 as (pm1 & Hpm1 & _).
    repeat split.
    + apply map_lookup_filter_None. right. intros x _ Hn.
      change (merges pedigree' !! father2 = None) in Hn. congruence.
    + apply map_lookup_filter_None. right. intros x _ Hn.
      change (merges pedigree' !! mother2 = None) in Hn. congruence.
    + exists pf1. apply visiblePersons_lookup; assumption.
    + exists pm1. apply visiblePersons_lookup; assumption.
Qed.

Lemma X16_witness :
  exists graph,
    pedigreeToGraph
      (size (merges (addRelationship cousinsBase "p1" "p2" DeclSiblings)))
      (addRelationship cousinsBase "p1" "p2" DeclSiblings) = Some graph /\
    persons graph !! "father2" = None /\ persons graph !! "mother2" = None /\
    is_Some (persons graph !! "father1") /\ is_Some (persons graph !! "mother1").
Proof.
  refine (proj2 (X16_siblings_share_one_father_and_one_mother cousinsBase
                   "p1" "p2" "father1" "father2" "mother1" "mother2"
                   _ _ _ _ _ _ _ _ _ _ _ _ _));
    try (vm_compute; reflexivity); try discriminate.
  apply acyclicb_sound. vm_compute. reflexivity.
Defined.

End EditorExtras.

(** * Further properties of the visible graph *)

Section VisibleGraph.

Import Dynamic.
Implicit Types (pedigree : DynamicPedigree).

Lemma existsb_edge_false (es : list ParentChildEdge) (p c : string) :
  existsb (fun e => String.eqb (parentId e) p && String.eqb (childId e) c) es = false ->
  ~ In {| parentId := p; childId := c |} es.
Proof.
  intros Hex Hin. apply Bool.not_true_iff_false in Hex. apply Hex.
  apply existsb_exists. eexists. split; [exact Hin|]. simpl.
  rewrite !String.eqb_refl. reflexivity.
Qed.

Lemma existsb_edge_true (es : list ParentChildEdge) (p c : string) :
  existsb (fun e => String.eqb (parentId e) p && String.eqb (childId e) c) es = true ->
  In {| parentId := p; childId := c |} es.
Proof.
  intros Hex. apply existsb_exists in Hex as ([p' c'] & Hin & Heq). simpl in Heq.
  apply andb_prop in Heq as [Hp Hc].
  apply String.eqb_eq in Hp, Hc. subst. exact Hin.
Qed.

(** What the edge loop keeps, and that it represents every edge it has
    gone through. *)
Lemma resolvedEdges_loop fuel (merges : gmap string string) :
  forall (l : list ParentChildEdge) (acc es : list ParentChildEdge),
  Genetics.for_each
    (fun edges edge =>
       match resolveId fuel (parentId edge) merges with
       | None => None
       | Some parentId' =>
           match resolveId fuel (childId edge) merges with
           | None => None
           | Some childId' =>
               Some (if existsb (fun e => String.eqb (parentId e) parentId'
                                          && String.eqb (childId e) childId') edges
                     then edges
                     else edges ++ [ {| parentId := parentId'; childId := childId' |} ])
           end
       end) l acc = Some es ->
  (NoDup acc -> NoDup es) /\
  (forall e, In e es ->
     In e acc \/
     exists e0, In e0 l /\ resolveId fuel (parentId e0) merges = Some (parentId e) /\
                resolveId fuel (childId e0) merges = Some (childId e)) /\
  (forall e, In e acc -> In e es) /\
  (forall e0, In e0 l ->
     exists e, In e es /\ resolveId fuel (parentId e0) merges = Some (parentId e) /\
               resolveId fuel (childId e0) merges = Some (childId e)) /\
  length es <= length acc + length l.
Proof.
  induction l as [|a l IH]; intros acc es; simpl.
  - intros [= <-]. split; [tauto|]. split; [tauto|]. split; [tauto|].
    split; [intros e0 [] | lia].
  - destruct (resolveId fuel (parentId a) merges) as [p|] eqn:Ep; [|discriminate].
    destruct (resolveId fuel (childId a) merges) as [c|] eqn:Ec; [|discriminate].
    intros H. apply IH in H as (Hnd & Hfrom & Hkeep & Hall & Hlen).
    destruct (existsb _ acc) eqn:Ex.
    + apply existsb_edge_true in Ex.
      split; [exact Hnd|]. split; [|split; [exact Hkeep|split]].
      * intros e He. destruct (Hfrom e He) as [Hacc | (e0 & H0 & Hr)]; [tauto|].
        right. exists e0. tauto.
      * intros e0 [<- | H0].
        -- exists {| parentId := p; childId := c |}. simpl. auto.
        -- apply Hall, H0.
      * lia.
    + apply existsb_edge_false in Ex.
      split; [|split; [|split; [|split]]].
      * intros Hacc. apply Hnd. apply NoDup_app. split; [exact Hacc|].
        split; [|apply NoDup_singleton].
        intros x Hx Hx'. apply list_elem_of_singleton in Hx'. subst x.
        apply Ex, list_elem_of_In, Hx.
      * intros e He. destruct (Hfrom e He) as [Hacc | (e0 & H0 & Hr)].
        -- apply in_app_or in Hacc as [Hacc | [<- | []]]; [tauto|].
           right. exists a. simpl. auto.
        -- right. exists e0. tauto.
      * intros e He. apply Hkeep, in_or_app. tauto.
      * intros e0 [<- | H0].
        -- exists {| parentId := p; childId := c |}. simpl.
           split; [|auto]. apply Hkeep, in_or_app. right. left. reflexivity.
        -- apply Hall, H0.
      * rewrite length_app in Hlen. simpl in Hlen. lia.
Qed.

(** X17: whenever [pedigreeToGraph] returns, no visible person is a
    key of the merge map and each is a person of the store, unchanged;
    the edges have no duplicates and are not more than the edges of
    the store; both ends of an edge are canonical ids and the edge is
    the resolution of an edge of the store; and every edge of the
    store is represented by its resolution. *)
Theorem X17_visible_graph_is_canonical_and_duplicate_free
    (pedigree : DynamicPedigree) (fuel : nat) (graph : FamilyGraph) :
  pedigreeToGraph fuel pedigree = Some graph ->
  (forall id person,
     persons graph !! id = Some person ->
     ped_persons pedigree !! id = Some person /\ merges pedigree !! id = None) /\
  NoDup (edges graph) /\
  length (edges graph) <= length (ped_edges pedigree) /\
  (forall e, In e (edges graph) ->
     merges pedigree !! parentId e = None /\ merges pedigree !! childId e = None /\
     exists e0, In e0 (ped_edges pedigree) /\
                resolveId fuel (parentId e0) (merges pedigree) = Some (parentId e) /\
                resolveId fuel (childId e0) (merges pedigree) = Some (childId e)) /\
  (forall e0, In e0 (ped_edges pedigree) ->
     exists e, In e (edges graph) /\
               resolveId fuel (parentId e0) (merges pedigree) = Some (parentId e) /\
               resolveId fuel (childId e0) (merges pedigree) = Some (childId e)).
Proof.
  unfold pedigreeToGraph.
  destruct (resolvedEdges fuel pedigree) as [es|] eqn:Ee; [|discriminate].
  destruct (resolvedLinks fuel pedigree) as [ls|]; [|discriminate].
  intros [= <-]. simpl.
  apply resolvedEdges_loop in Ee as (Hnd & Hfrom & _ & Hall & Hlen).
  split.
  { intros id person. unfold visiblePersons. rewrite map_lookup_filter_Some. tauto. }
  split; [apply Hnd; constructor|]. split; [simpl in Hlen; lia|].
  split; [|exact Hall].
  intros e He. destruct (Hfrom e He) as [[] | (e0 & H0 & Hp & Hc)].
  split; [apply resolveId_sound in Hp; tauto|].
  split; [apply resolveId_sound in Hc; tauto|]. eauto.
Qed.

Lemma X17_witness :
  NoDup (edges
           (default (mkGraph ∅ [] [])
              (pedigreeToGraph 1 (addRelationship cousinsBase "p1" "p2" DeclSiblings)))).
Proof.
  refine (proj1 (proj2
    (X17_visible_graph_is_canonical_and_duplicate_free
       (addRelationship cousinsBase "p1" "p2" DeclSiblings) 1 _ _))).
  vm_compute. reflexivity.
Defined.

Lemma resolvedLinks_loop fuel (merges : gmap string string) :
  forall (l : list NodeRelationship) (acc ls : list ConsanguinityLink),
  Genetics.for_each
    (fun links rel =>
       match resolveId fuel (person1Id rel) merges with
       | None => None
       | Some id1 =>
           match resolveId fuel (person2Id rel) merges with
           | None => None
           | Some id2 =>
               Some (match type rel with
                     | DeclUnrelated | DeclSpouse => links
                     | t => links ++ [ {| link_person1Id := id1;
                                          link_person2Id := id2;
                                          link_relationship := linkRelationship t |} ]
                     end)
           end
       end) l acc = Some ls ->
  exists new,
    ls = acc ++ new /\
    Forall2
      (fun decl link =>
         resolveId fuel (person1Id decl) merges = Some (link_person1Id link) /\
         resolveId fuel (person2Id decl) merges = Some (link_person2Id link) /\
         link_relationship link = linkRelationship (type decl))
      (List.filter drawsLink l) new.
Proof.
  induction l as [|[a b t] l IH]; intros acc ls; simpl.
  - intros [= <-]. exists []. rewrite app_nil_r. split; [reflexivity | constructor].
  - destruct (resolveId fuel a merges) as [id1|] eqn:E1; [|discriminate].
    destruct (resolveId fuel b merges) as [id2|] eqn:E2; [|discriminate].
    intros H. apply IH in H as (new & -> & Hnew).
    unfold drawsLink at 1. simpl.
    destruct t; simpl;
      try (exists new; split; [reflexivity | exact Hnew]);
      (eexists (_ :: new); split; [rewrite <- app_assoc; reflexivity|];
       constructor; [simpl; auto | exact Hnew]).
Qed.

(** X18: whenever [pedigreeToGraph] returns, the links are, in order,
    one per declaration that is neither unrelated nor spouse: the two
    ids are the resolved ids of the declaration, the relationship is
    the declared one, and a declaration of any other type would be
    drawn as siblings. *)
Theorem X18_one_link_per_drawn_declaration
    (pedigree : DynamicPedigree) (fuel : nat) (graph : FamilyGraph) :
  pedigreeToGraph fuel pedigree = Some graph ->
  Forall2
    (fun decl link =>
       resolveId fuel (person1Id decl) (merges pedigree) = Some (link_person1Id link) /\
       resolveId fuel (person2Id decl) (merges pedigree) = Some (link_person2Id link) /\
       link_relationship link
       = match type decl with
         | DeclFirstCousins => FirstCousins
         | DeclSecondCousins => SecondCousins
         | DeclHalfSiblings => HalfSiblings
         | _ => Siblings
         end)
    (List.filter drawsLink (definedRelationships pedigree))
    (consanguinityLinks graph).
Proof.
  unfold pedigreeToGraph.
  destruct (resolvedEdges fuel pedigree) as [es|]; [|discriminate].
  destruct (resolvedLinks fuel pedigree) as [ls|] eqn:El; [|discriminate].
  intros [= <-]. simpl.
  apply resolvedLinks_loop in El as (new & -> & Hnew). exact Hnew.
Qed.

Lemma X18_witness :
  Forall2
    (fun decl link =>
       resolveId 1 (person1Id decl)
         (merges (addRelationship cousinsBase "p1" "p2" DeclHalfSiblings))
       = Some (link_person1Id link) /\
       resolveId 1 (person2Id decl)
         (merges (addRelationship cousinsBase "p1" "p2" DeclHalfSiblings))
       = Some (link_person2Id link) /\
       link_relationship link
       = match type decl with
         | DeclFirstCousins => FirstCousins
         | DeclSecondCousins => SecondCousins
         | DeclHalfSiblings => HalfSiblings
         | _ => Siblings
         end)
    (List.filter drawsLink
       (definedRelationships (addRelationship cousinsBase "p1" "p2" DeclHalfSiblings)))
    (consanguinityLinks
       (default (mkGraph ∅ [] [])
          (pedigreeToGraph 1 (addRelationship cousinsBase "p1" "p2" DeclHalfSiblings)))).
Proof.
  apply (X18_one_link_per_drawn_declaration
           (addRelationship cousinsBase "p1" "p2" DeclHalfSiblings) 1).
  vm_compute. reflexivity.
Defined.

Lemma resolvedEdges_identity (merges : gmap string string) fuel :
  (forall id, resolveId fuel id merges = Some id) ->
  forall (l acc : list ParentChildEdge),
  NoDup (acc ++ l) ->
  Genetics.for_each
    (fun edges edge =>
       match resolveId fuel (parentId edge) merges with
       | None => None
       | Some parentId' =>
           match resolveId fuel (childId edge) merges with
           | None => None
           | Some childId' =>
               Some (if existsb (fun e => String.eqb (parentId e) parentId'
                                          && String.eqb (childId e) childId') edges
                     then edges
                     else edges ++ [ {| parentId := parentId'; childId := childId' |} ])
           end
       end) l acc = Some (acc ++ l).
Proof.
  intros Hid. induction l as [|[p c] l IH]; intros acc Hnd; simpl.
  - rewrite app_nil_r. reflexivity.
  - rewrite !Hid.
    destruct (existsb _ acc) eqn:Ex.
    + apply existsb_edge_true in Ex. exfalso.
      apply NoDup_app in Hnd as (_ & Hdisj & _).
      apply (Hdisj {| parentId := p; childId := c |});
        [apply list_elem_of_In, Ex | left].
    + replace (acc ++ {| parentId := p; childId := c |} :: l)
        with ((acc ++ [ {| parentId := p; childId := c |} ]) ++ l)
        by (rewrite <- app_assoc; reflexivity).
      apply IH. rewrite <- app_assoc. exact Hnd.
Qed.

(** X19: with an empty merge map and an edge list without duplicates
    the visible graph is the store itself: the same persons and the
    same edges in the same order, for any fuel. *)
Theorem X19_unmerged_pedigree_is_shown_as_it_is
    (pedigree : DynamicPedigree) (fuel : nat) :
  merges pedigree = ∅ ->
  NoDup (ped_edges pedigree) ->
  exists graph,
    pedigreeToGraph fuel pedigree = Some graph /\
    persons graph = ped_persons pedigree /\
    edges graph = ped_edges pedigree.
Proof.
  intros Hm Hnd.
  assert (forall id, resolveId fuel id (merges pedigree) = Some id) as Hid.
  { intros id. apply resolveId_unmapped. rewrite Hm. apply lookup_empty. }
  unfold pedigreeToGraph, resolvedEdges.
  rewrite (resolvedEdges_identity _ _ Hid _ [] Hnd). simpl.
  destruct (for_each_invariant (fun _ : list ConsanguinityLink => True)
              (fun links rel =>
                 match resolveId fuel (person1Id rel) (merges pedigree) with
                 | None => None
                 | Some id1 =>
                     match resolveId fuel (person2Id rel) (merges pedigree) with
                     | None => None
                     | Some id2 =>
                         Some (match type rel with
                               | DeclUnrelated | DeclSpouse => links
                               | t => links ++ [ {| link_person1Id := id1;
                                                    link_person2Id := id2;
                                                    link_relationship := linkRelationship t |} ]
                               end)
                     end
                 end)
              (definedRelationships pedigree)) with ([] : list ConsanguinityLink)
    as (ls & Hls & _); [| exact I |].
  { intros s rel _ _. rewrite !Hid. eauto. }
  unfold resolvedLinks. rewrite Hls. eexists. split; [reflexivity|]. simpl.
  split; [|reflexivity].
  unfold visiblePersons. apply map_filter_id. intros i x _. simpl.
  rewrite Hm. apply lookup_empty.
Qed.

Lemma X19_witness :
  exists graph,
    pedigreeToGraph 0 cousinsBase = Some graph /\
    persons graph = ped_persons cousinsBase /\
    edges graph = ped_edges cousinsBase.
Proof.
  apply X19_unmerged_pedigree_is_shown_as_it_is.
  - reflexivity.
  - apply (bool_decide_eq_true_1 (NoDup (ped_edges cousinsBase))).
    vm_compute. reflexivity.
Defined.

End VisibleGraph.

(** * Properties of the generators and of the option list *)

Section Generators.

Import Dynamic.

(** X20: [getRelationshipOptions] offers nothing when one of the two
    ids is not a person of the store and offers unrelated first
    otherwise; siblings, half-siblings and the two cousin types are
    offered exactly when both persons exist and have the same
    generation; spouse is never offered. *)
Theorem X20_options_depend_on_generation_only
    (pedigree : DynamicPedigree) (idA idB : string) :
  let offered := map fst (getRelationshipOptions pedigree idA idB) in
  (offered = [] <->
   ped_persons pedigree !! idA = None \/ ped_persons pedigree !! idB = None) /\
  (offered <> [] -> head offered = Some DeclUnrelated) /\
  (forall t, In t [DeclSiblings; DeclHalfSiblings; DeclFirstCousins; DeclSecondCousins] ->
     (In t offered <->
      exists p1 p2, ped_persons pedigree !! idA = Some p1 /\
                    ped_persons pedigree !! idB = Some p2 /\
                    generation p1 = generation p2)) /\
  ~ In DeclSpouse offered.
Proof.
  cbv zeta. unfold getRelationshipOptions.
  destruct (ped_persons pedigree !! idA) as [p1|] eqn:EA;
    destruct (ped_persons pedigree !! idB) as [p2|] eqn:EB.
  - destruct (Nat.eqb_spec (generation p1) (generation p2)) as [Hg|Hg]; simpl.
    + split; [split; [discriminate | intros [H|H]; discriminate H]|].
      split; [reflexivity|].
      split; [|intros H; repeat (destruct H as [H|H]; [discriminate H|]); exact H].
      intros t Ht. split; [intros _; eauto|].
      intros _. repeat (destruct Ht as [Ht|Ht]; [subst; tauto|]). contradiction.
    + split; [split; [discriminate | intros [H|H]; discriminate H]|].
      split; [reflexivity|].
      split; [|intros H; repeat (destruct H as [H|H]; [discriminate H|]); exact H].
      intros t Ht. split.
      * intros [H|[]]. repeat (destruct Ht as [Ht|Ht]; [subst; discriminate H|]). contradiction.
      * intros (q1 & q2 & [= <-] & [= <-] & H). contradiction.
  - simpl. split; [tauto|]. split; [contradiction|]. split; [|tauto].
    intros t _. split; [contradiction|]. intros (q1 & q2 & _ & H & _). discriminate.
  - simpl. split; [tauto|]. split; [contradiction|]. split; [|tauto].
    intros t _. split; [contradiction|]. intros (q1 & q2 & H & _). discriminate.
  - simpl. split; [tauto|]. split; [contradiction|]. split; [|tauto].
    intros t _. split; [contradiction|]. intros (q1 & q2 & H & _). discriminate.
Qed.

Lemma parentsOfPerson_nil_or_child pedigree child :
  parentsOfPerson pedigree child = [] \/ In child (map childId (ped_edges pedigree)).
Proof.
  unfold parentsOfPerson.
  induction (ped_edges pedigree) as [|e l IH]; simpl; [tauto|].
  destruct (String.eqb_spec (childId e) child) as [->|Hne]; [tauto|].
  destruct IH; tauto.
Qed.

(** What holds of the parents of every child of an edge, and of a child
    without parents, holds of the parents of every id. *)
Lemma parentsOfSex_by_edges pedigree (P : Sex -> string -> nat -> Prop) :
  (forall s child, P s child 0) ->
  Forall (fun child => P M child (parentsOfSex pedigree M child)
                       /\ P F child (parentsOfSex pedigree F child))
         (map childId (ped_edges pedigree)) ->
  forall child s, P s child (parentsOfSex pedigree s child).
Proof.
  intros Hzero Hall child s.
  destruct (parentsOfPerson_nil_or_child pedigree child) as [Hnil | Hin].
  - unfold parentsOfSex. rewrite Hnil. simpl. apply Hzero.
  - rewrite Forall_forall in Hall. apply list_elem_of_In in Hin.
    destruct (Hall child Hin). destruct s; assumption.
Qed.

(** X21: every base pedigree is well formed, whatever the relationship
    type and the two sexes: the merge map and the log are empty, the
    targets are p1 and p2 and carry the requested sexes, every key is
    the id of its person, every edge joins two persons of the store
    with the parent in a strictly older generation tier, and no edge is
    listed twice.  Nobody has more than one parent of either sex, with
    one exception: in the avuncular pedigree p2 has two parents of the
    sex opposite to that of p1. *)
Theorem X21_base_pedigrees_are_well_formed
    (baseRelationship : RelationshipType) (person1Sex person2Sex : Sex) :
  let pedigree := generateBasePedigree baseRelationship person1Sex person2Sex in
  merges pedigree = ∅ /\ definedRelationships pedigree = [] /\
  targetPair pedigree = ("p1", "p2") /\
  sex <$> ped_persons pedigree !! "p1" = Some person1Sex /\
  sex <$> ped_persons pedigree !! "p2" = Some person2Sex /\
  map_Forall (fun key person => id person = key) (ped_persons pedigree) /\
  Forall (fun e => exists parent child,
                     ped_persons pedigree !! parentId e = Some parent /\
                     ped_persons pedigree !! childId e = Some child /\
                     generation parent < generation child)
         (ped_edges pedigree) /\
  NoDup (ped_edges pedigree) /\
  (forall child s,
     parentsOfSex pedigree s child <= 1 \/
     (baseRelationship = Avuncular /\ child = "p2" /\ s = opposite person1Sex)) /\
  parentsOfSex (generateBasePedigree Avuncular person1Sex person2Sex)
    (opposite person1Sex) "p2" = 2.
Proof.
  cbv zeta. split; [reflexivity|]. split; [reflexivity|]. split; [reflexivity|].
  split; [destruct baseRelationship, person1Sex; vm_compute; reflexivity|].
  split; [destruct baseRelationship, person2Sex; vm_compute; reflexivity|].
  split.
  { destruct baseRelationship; unfold generateBasePedigree, Templates.setAll;
      simpl; repeat (apply map_Forall_insert_2; [reflexivity|]);
      apply map_Forall_empty. }
  split.
  { destruct baseRelationship, person1Sex, person2Sex;
      cbn [ped_edges generateBasePedigree baseEdges];
      repeat (apply Forall_cons; split);
      first [ solve [constructor]
            | eexists; eexists; split; [vm_compute; reflexivity|];
              split; [vm_compute; reflexivity | vm_compute; lia] ]. }
  split.
  { destruct baseRelationship;
      match goal with
      | |- NoDup ?l => apply (bool_decide_eq_true_1 (NoDup l))
      end; vm_compute; reflexivity. }
  split; [|destruct person1Sex, person2Sex; reflexivity].
  apply (parentsOfSex_by_edges _
           (fun s child n =>
              n <= 1 \/
              (baseRelationship = Avuncular /\ child = "p2" /\ s = opposite person1Sex)));
    [intros s child; left; lia|].
  destruct baseRelationship, person1Sex, person2Sex;
    cbn [ped_edges generateBasePedigree baseEdges map childId addEdge];
    repeat (apply Forall_cons; split; [split|]);
    first [ solve [constructor]
          | left; vm_compute; lia
          | right; split; [reflexivity|]; split; reflexivity ].
Qed.

Lemma template_consistent (graph : FamilyGraph) :
  graph = Templates.createSiblingPedigree \/ graph = Templates.createCousinsPedigree ->
  map_Forall (backReferencesAgree graph) (persons graph) /\
  Forall (edgeHasBackReference graph) (edges graph) /\
  NoDup (edges graph).
Proof.
  intros [-> | ->]; (split; [|split]).
  1,4: unfold Templates.createSiblingPedigree, Templates.createCousinsPedigree,
         Templates.setAll;
       cbn [persons fold_left fst snd];
       repeat (apply map_Forall_insert_2;
               [split; [reflexivity|];
                split; intros p H; first [discriminate H | injection H as <-];
                (split; [vm_compute; reflexivity | simpl; tauto])|]);
       apply map_Forall_empty.
  1,3: cbn [edges Templates.createSiblingPedigree Templates.createCousinsPedigree];
       repeat (apply Forall_cons; split);
       first [ solve [constructor]
             | eexists; split; [vm_compute; reflexivity | simpl; tauto] ].
  all: match goal with
       | |- NoDup ?l => apply (bool_decide_eq_true_1 (NoDup l))
       end; vm_compute; reflexivity.
Qed.

(** X22: the static templates are consistent for every relationship
    type: the two selected ids are distinct persons of the template
    graph; every person is stored under its own id, its mother is a
    female and its father a male person of the graph, each joined to it
    by an edge; every edge is the back-reference of its child; no edge
    is listed twice; and there is no consanguinity link. *)
Theorem X22_templates_are_consistent (relationship : RelationshipType) :
  let graph := Templates.getPedigreeForRelationship relationship in
  let pair := Templates.getSelectedPairIds relationship in
  is_Some (persons graph !! pair.1) /\ is_Some (persons graph !! pair.2) /\
  pair.1 <> pair.2 /\
  map_Forall (backReferencesAgree graph) (persons graph) /\
  Forall (edgeHasBackReference graph) (edges graph) /\
  NoDup (edges graph) /\
  consanguinityLinks graph = [].
Proof.
  cbv zeta.
  split; [destruct relationship; vm_compute; eauto|].
  split; [destruct relationship; vm_compute; eauto|].
  split; [destruct relationship; discriminate|].
  assert (Templates.getPedigreeForRelationship relationship = Templates.createSiblingPedigree
          \/ Templates.getPedigreeForRelationship relationship = Templates.createCousinsPedigree)
    as Hg by (destruct relationship; simpl; tauto).
  destruct (template_consistent _ Hg) as (H1 & H2 & H3).
  split; [exact H1|]. split; [exact H2|]. split; [exact H3|].
  destruct relationship; reflexivity.
Qed.

End Generators.

(** * Further properties of the path finder of the dynamic pedigree *)

Section ForEachIn.

Import Genetics.
Context {St A : Type}.

(** What the body keeps on the elements of the list, the loop keeps. *)
Lemma for_each_preserves_in (I : St -> Prop) (body : St -> A -> option St) (l : list A) :
  (forall s a s', In a l -> I s -> body s a = Some s' -> I s') ->
  forall s s', I s -> for_each body l s = Some s' -> I s'.
Proof.
  induction l as [|a l IH]; intros Hbody s s' Hs; simpl.
  - intros [= <-]. exact Hs.
  - destruct (body s a) as [s1|] eqn:E; [|discriminate].
    apply IH.
    + intros s0 a0 s0' Ha0. apply Hbody. right. exact Ha0.
    + eapply Hbody; [left; reflexivity | exact Hs | exact E].
Qed.

End ForEachIn.

Section DepthsAreReal.

Import Dynamic.
Implicit Types (parentOf : gmap string (list string)).

Lemma dfs_records_real_depths parentOf (start : string) :
  forall fuel current depth st res,
  upwardPath parentOf depth start current ->
  Forall (realDepth parentOf start) st.1 /\ NoDup (map fst st.1) ->
  dfs fuel parentOf current depth st = Some res ->
  Forall (realDepth parentOf start) res.1 /\ NoDup (map fst res.1).
Proof.
  induction fuel as [|fuel IH]; intros current depth [ancestors visited] res Hup Hst;
    [discriminate|].
  simpl. destruct (decide (current ∈ visited)); [intros [= <-]; exact Hst|].
  apply (for_each_preserves_in
           (fun st : omap nat * gset string =>
              Forall (realDepth parentOf start) st.1 /\ NoDup (map fst st.1)));
    [|exact Hst].
  intros [anc v] parent st' Hin [HF HN]. simpl in HF, HN.
  assert (upwardPath parentOf (depth + 1) start parent) as Hup'.
  { replace (depth + 1) with (S depth) by lia.
    eapply nsteps_r; [exact Hup|]. unfold parentEdge. apply list_elem_of_In, Hin. }
  assert (realDepth parentOf start (parent, depth + 1)) as Hreal
    by (split; [simpl; lia | exact Hup']).
  apply IH; [exact Hup'|]. simpl.
  destruct (oget parent anc) as [d|].
  - destruct (depth + 1 <? d)%nat; [|tauto].
    split; [apply oset_Forall; assumption | apply oset_NoDup_keys, HN].
  - split; [apply oset_Forall; assumption | apply oset_NoDup_keys, HN].
Qed.

(** X23: whenever [getAncestors] returns, the id it was given
    resolves, no ancestor is recorded twice, and every recorded depth
    is at least 1 and is the number of edges of an upward path in the
    adjacency from the resolved id to that ancestor. *)
Theorem X23_recorded_depths_are_lengths_of_upward_paths
    (parentOf : gmap string (list string)) (merges : gmap string string)
    (fuel : nat) (id : string) (ancestors : omap nat) :
  getAncestors fuel parentOf merges id = Some ancestors ->
  exists start,
    resolveId fuel id merges = Some start /\
    NoDup (map fst ancestors) /\
    Forall (fun kv : string * nat => 1 <= kv.2 /\ upwardPath parentOf kv.2 start kv.1)
           ancestors.
Proof.
  unfold getAncestors.
  destruct (resolveId fuel id merges) as [start|]; [|discriminate].
  destruct (dfs fuel parentOf start 0 ([], ∅)) as [[anc v]|] eqn:Ed; [|discriminate].
  intros [= <-]. exists start. split; [reflexivity|].
  apply (dfs_records_real_depths parentOf start) in Ed as [HF HN].
  - split; [exact HN | exact HF].
  - apply nsteps_O.
  - split; constructor.
Qed.

Lemma X23_witness :
  exists start,
    resolveId 4 "child" (merges inbredPedigree) = Some start /\
    NoDup (map fst [("mother", 1); ("father", 1); ("grandfather", 3)]) /\
    Forall (fun kv : string * nat =>
              1 <= kv.2 /\
              upwardPath (default ∅ (buildParentOf 4 inbredPedigree)) kv.2 start kv.1)
           [("mother", 1); ("father", 1); ("grandfather", 3)].
Proof.
  apply (X23_recorded_depths_are_lengths_of_upward_paths
           (default ∅ (buildParentOf 4 inbredPedigree)) (merges inbredPedigree)
           4 "child").
  vm_compute. reflexivity.
Defined.

End DepthsAreReal.

Section ResultRange.

Import Dynamic.
Local Open Scope Q_scope.

Lemma oget_of_key {V} (m : omap V) (k : string) :
  In k (map fst m) -> exists v, oget k m = Some v.
Proof.
  induction m as [|[k' v'] m IH]; simpl; [tauto|].
  destruct (String.eqb_spec k k') as [->|Hne]; [eauto|].
  intros [H | H]; [congruence | apply IH, H].
Qed.

Lemma getAncestors_depths_positive parentOf merges fuel id ancestors :
  getAncestors fuel parentOf merges id = Some ancestors ->
  Forall (fun kv : string * nat => (1 <= kv.2)%nat) ancestors.
Proof.
  unfold getAncestors.
  destruct (resolveId fuel id merges) as [start|]; [|discriminate].
  destruct (dfs fuel parentOf start 0 ([], ∅)) as [[anc v]|] eqn:Ed; [|discriminate].
  intros [= <-].
  apply (dfs_records_real_depths parentOf start) in Ed as [HF _].
  - eapply Forall_impl; [exact HF|]. intros kv [H _]. exact H.
  - apply nsteps_O.
  - split; constructor.
Qed.

(** A path of [commonPaths] is its common ancestor repeated at least
    three times. *)
Lemma commonPaths_shape (ancestors1 ancestors2 : omap nat) :
  Forall (fun kv : string * nat => (1 <= kv.2)%nat) ancestors1 ->
  Forall (fun kv : string * nat => (1 <= kv.2)%nat) ancestors2 ->
  Forall (fun path => (3 <= length path)%nat /\
                      exists ancestor, path = repeat ancestor (length path))
         (commonPaths ancestors1 ancestors2).
Proof.
  intros H1 H2. unfold commonPaths. rewrite Forall_forall in H1, H2.
  apply Forall_forall. intros path Hpath.
  apply list_elem_of_In, in_map_iff in Hpath as (a & <- & Ha).
  apply filter_In in Ha as [Ha1 Ha2].
  destruct (oget_of_key _ _ Ha1) as [d1 E1]. unfold ohas in Ha2.
  destruct (oget a ancestors2) as [d2|] eqn:E2; [|discriminate].
  rewrite E1. simpl. rewrite repeat_length. split; [|eauto].
  pose proof (H1 (a, d1) ltac:(apply list_elem_of_In, oget_Some_In, E1)).
  pose proof (H2 (a, d2) ltac:(apply list_elem_of_In, oget_Some_In, E2)).
  simpl in *. lia.
Qed.

Lemma long_path_contribution (path : list string) :
  (3 <= length path)%nat ->
  0 < pow_half (Z.of_nat (length path) - 1) <= 1 # 4.
Proof.
  intros Hlen. split; [apply pow_half_pos|].
  replace (Z.of_nat (length path) - 1)%Z with (Z.of_nat (2 + (length path - 3)))
    by lia.
  rewrite pow_half_add.
  assert (pow_half (Z.of_nat 2) == 1 # 4) as -> by reflexivity.
  assert ((1 # 4) == (1 # 4) * 1) as E by ring. rewrite E at 2.
  apply Qmult_le_l; [reflexivity | apply pow_half_le_1].
Qed.

Lemma Qsum_positive {A} (f : A -> Q) (l : list A) :
  l <> [] -> (forall x, In x l -> 0 < f x) -> 0 < Qsum (map f l).
Proof.
  induction l as [|x l IH]; intros Hne Hpos; [contradiction|]. simpl.
  destruct l as [|y l].
  - simpl. rewrite Qplus_0_r. apply Hpos. left. reflexivity.
  - assert (0 == 0 + 0) as -> by ring. apply Qplus_lt_le_compat.
    + apply Hpos. left. reflexivity.
    + apply Qlt_le_weak, IH; [discriminate|].
      intros z Hz. apply Hpos. right. exact Hz.
Qed.

Lemma findAllPaths_shape pedigree fuel id1 id2 paths :
  findAllPaths fuel id1 id2 pedigree = Some paths ->
  Forall (fun path => (3 <= length path)%nat /\
                      exists ancestor, path = repeat ancestor (length path))
         paths.
Proof.
  unfold findAllPaths.
  destruct (buildParentOf fuel pedigree) as [parentOf|]; [|discriminate].
  destruct (getAncestors fuel parentOf (merges pedigree) id1) as [a1|] eqn:E1;
    [|discriminate].
  destruct (getAncestors fuel parentOf (merges pedigree) id2) as [a2|] eqn:E2;
    [|discriminate].
  intros [= <-].
  apply commonPaths_shape; eapply getAncestors_depths_positive; eassumption.
Qed.

(** X24: whenever [calculateFromPedigree] returns, every contributing
    path is one common ancestor repeated at least three times; with
    [n] paths the returned r lies between 0 and 1 and the returned F
    between 0 and n/8; without a path r and F are 0; and when no path
    has more than 1075 ids, so that no term [Math.pow(0.5, n - 1)]
    underflows to 0, r is 0 only if there is no path. *)
Theorem X24_result_ranges
    (pedigree : DynamicPedigree) (fuel : nat) (result : PedigreeResult) :
  calculateFromPedigree fuel pedigree = Some result ->
  Forall (fun path => (3 <= length path)%nat /\
                      exists ancestor, path = repeat ancestor (length path))
         (contributingPaths result) /\
  0 <= coefficientOfRelationship result <= 1 /\
  0 <= inbreedingCoefficient result
  <= (1 # 8) * inject_Z (Z.of_nat (length (contributingPaths result))) /\
  (contributingPaths result = [] ->
   coefficientOfRelationship result == 0 /\ inbreedingCoefficient result == 0) /\
  (Forall (fun path => (length path <= 1075)%nat) (contributingPaths result) ->
   coefficientOfRelationship result == 0 -> contributingPaths result = []).
Proof.
  unfold calculateFromPedigree. destruct (targetPair pedigree) as [id1 id2].
  destruct (findAllPaths fuel id1 id2 pedigree) as [paths|] eqn:E; [|discriminate].
  intros [= <-]. simpl.
  apply findAllPaths_shape in E.
  assert (forall path, In path paths ->
            0 < pow_half (Z.of_nat (length path) - 1) <= 1 # 4) as Hc.
  { intros path Hin. apply long_path_contribution.
    rewrite Forall_forall in E. apply E, list_elem_of_In, Hin. }
  assert (0 * inject_Z (Z.of_nat (length paths)) <= pathSum paths
          <= (1 # 4) * inject_Z (Z.of_nat (length paths))) as [Hlo Hhi].
  { rewrite pathSum_sum. unfold rawPathSum. apply Qsum_map_bounds.
    intros x Hx. destruct (Hc x Hx). split; [apply Qlt_le_weak|]; assumption. }
  rewrite Qmult_0_l in Hlo.
  split; [exact E|]. split; [|split; [|split]].
  - split; [apply Q.min_glb; [exact Hlo | discriminate] | apply Q.le_min_r].
  - split.
    + unfold Qdiv. apply Qmult_le_0_compat; [exact Hlo | discriminate].
    + unfold Qdiv. change (/ 2) with (1 # 2).
      assert ((1 # 8) * inject_Z (Z.of_nat (length paths))
              == (1 # 4) * inject_Z (Z.of_nat (length paths)) * (1 # 2)) as ->
        by ring.
      apply Qmult_le_compat_r; [exact Hhi | discriminate].
  - intros ->. split; reflexivity.
  - intros _ H0. destruct paths as [|p l]; [reflexivity|]. exfalso.
    assert (0 < pathSum (p :: l)) as Hpos.
    { rewrite pathSum_sum. unfold rawPathSum. apply Qsum_positive; [discriminate|].
      intros x Hx. apply Hc, Hx. }
    destruct (Q.min_dec (pathSum (p :: l)) 1) as [Hm | Hm];
      rewrite Hm in H0; [|discriminate H0].
    rewrite H0 in Hpos. discriminate Hpos.
Qed.

Lemma X24_witness :
  let result := default (mkPedigreeResult 0 0 []) (calculateFromPedigree 2 fiveParents) in
  0 <= coefficientOfRelationship result <= 1 /\
  ~ coefficientOfRelationship result == 0.
Proof.
  cbv zeta.
  assert (calculateFromPedigree 2 fiveParents
          = Some (default (mkPedigreeResult 0 0 []) (calculateFromPedigree 2 fiveParents)))
    as Hret by (vm_compute; reflexivity).
  pose proof (X24_result_ranges fiveParents 2 _ Hret) as (_ & Hr & _ & _ & Hzero).
  split; [exact Hr|]. intros H0.
  assert (contributingPaths
            (default (mkPedigreeResult 0 0 []) (calculateFromPedigree 2 fiveParents)) = [])
    as Hnil.
  { apply Hzero; [|exact H0].
    vm_compute. repeat (apply Forall_cons; split; [lia|]). apply Forall_nil_2. }
  vm_compute in Hnil. discriminate Hnil.
Defined.

End ResultRange.

Section Founders.

Import Dynamic.
Local Open Scope Q_scope.

(** A key of the adjacency is the resolved child of some edge. *)
Lemma buildParentOf_keys pedigree fuel parentOf :
  buildParentOf fuel pedigree = Some parentOf ->
  forall k, is_Some (parentOf !! k) ->
            exists e, In e (ped_edges pedigree) /\
                      resolveId fuel (childId e) (merges pedigree) = Some k.
Proof.
  unfold buildParentOf.
  apply (for_each_preserves_in
           (fun acc : gmap string (list string) =>
              forall k, is_Some (acc !! k) ->
                        exists e, In e (ped_edges pedigree) /\
                                  resolveId fuel (childId e) (merges pedigree) = Some k)).
  - intros acc edge acc' Hin Hacc.
    destruct (resolveId fuel (childId edge) (merges pedigree)) as [c|] eqn:Ec;
      [|discriminate].
    destruct (resolveId fuel (parentId edge) (merges pedigree)) as [p|];
      [|discriminate].
    intros [= <-] k Hk.
    destruct (decide (k = c)) as [->|Hne]; [eauto|].
    rewrite lookup_insert_ne in Hk by congruence.
    apply Hacc. destruct (acc !! c); [exact Hk|].
    rewrite lookup_insert_ne in Hk by congruence. exact Hk.
  - intros k Hk. rewrite lookup_empty in Hk. destruct Hk as [? [=]].
Qed.

Lemma getAncestors_of_founder parentOf merges fuel id start ancestors :
  resolveId fuel id merges = Some start ->
  parentOf !! start = None ->
  getAncestors fuel parentOf merges id = Some ancestors ->
  ancestors = [].
Proof.
  intros Hs Hnone. unfold getAncestors. rewrite Hs.
  destruct fuel as [|fuel]; [discriminate|]. simpl.
  rewrite decide_False by apply not_elem_of_empty.
  rewrite Hnone. simpl. intros [= <-]. reflexivity.
Qed.

Lemma commonPaths_nil_r (ancestors1 : omap nat) : commonPaths ancestors1 [] = [].
Proof.
  unfold commonPaths.
  induction (map fst ancestors1) as [|k l IH]; simpl; [reflexivity | exact IH].
Qed.

(** X25: when no edge has a child that resolves to the resolved id of
    one of the two targets, a result that [calculateFromPedigree]
    returns has no contributing path, and its r and F are 0. *)
Theorem X25_a_target_without_parents_is_unrelated
    (pedigree : DynamicPedigree) (fuel : nat) (result : PedigreeResult) :
  calculateFromPedigree fuel pedigree = Some result ->
  (forall e, In e (ped_edges pedigree) ->
             resolveId fuel (childId e) (merges pedigree)
             <> resolveId fuel (targetPair pedigree).1 (merges pedigree)) \/
  (forall e, In e (ped_edges pedigree) ->
             resolveId fuel (childId e) (merges pedigree)
             <> resolveId fuel (targetPair pedigree).2 (merges pedigree)) ->
  contributingPaths result = [] /\
  coefficientOfRelationship result == 0 /\
  inbreedingCoefficient result == 0.
Proof.
  unfold calculateFromPedigree. destruct (targetPair pedigree) as [id1 id2]. simpl.
  unfold findAllPaths.
  destruct (buildParentOf fuel pedigree) as [parentOf|] eqn:Eb; [|discriminate].
  destruct (getAncestors fuel parentOf (merges pedigree) id1) as [a1|] eqn:E1;
    [|discriminate].
  destruct (getAncestors fuel parentOf (merges pedigree) id2) as [a2|] eqn:E2;
    [|discriminate].
  intros [= <-] Hfounder. simpl.
  assert (forall id anc,
            getAncestors fuel parentOf (merges pedigree) id = Some anc ->
            (forall e, In e (ped_edges pedigree) ->
                       resolveId fuel (childId e) (merges pedigree)
                       <> resolveId fuel id (merges pedigree)) ->
            anc = []) as Hnil.
  { intros id anc Hanc Hno.
    destruct (resolveId fuel id (merges pedigree)) as [start|] eqn:Es.
    2:{ unfold getAncestors in Hanc. rewrite Es in Hanc. discriminate. }
    apply (getAncestors_of_founder parentOf (merges pedigree) fuel id start);
      [exact Es | | exact Hanc].
    destruct (parentOf !! start) as [ps|] eqn:Ep; [|reflexivity]. exfalso.
    destruct (buildParentOf_keys _ _ _ Eb start) as (e & He & Hr); [eauto|].
    exact (Hno e He Hr). }
  assert (commonPaths a1 a2 = []) as ->.
  { destruct Hfounder as [H | H].
    - rewrite (Hnil id1 a1 E1 H). reflexivity.
    - rewrite (Hnil id2 a2 E2 H). apply commonPaths_nil_r. }
  repeat split; reflexivity.
Qed.

Lemma X25_witness :
  contributingPaths
    (default (mkPedigreeResult 1 1 [["x"]])
       (calculateFromPedigree 4
          {| ped_persons := ped_persons cousinsBase;
             ped_edges := ped_edges cousinsBase;
             definedRelationships := [];
             targetPair := ("p1", "gf-a");
             merges := ∅ |})) = [].
Proof.
  refine (proj1 (X25_a_target_without_parents_is_unrelated
                   {| ped_persons := ped_persons cousinsBase;
                      ped_edges := ped_edges cousinsBase;
                      definedRelationships := [];
                      targetPair := ("p1", "gf-a");
                      merges := ∅ |} 4 _ _ _)).
  - vm_compute. reflexivity.
  - right. intros e He. vm_compute in He.
    repeat (destruct He as [<- | He]; [vm_compute; discriminate|]). contradiction.
Defined.

End Founders.

Section Symmetry.

Import Dynamic.
Local Open Scope Q_scope.

Lemma ohas_true_keys {V} (m : omap V) (k : string) :
  ohas k m = true <-> In k (map fst m).
Proof.
  unfold ohas. split.
  - destruct (oget k m) as [v|] eqn:E; [|discriminate]. intros _.
    apply oget_Some_In in E. apply in_map_iff. exists (k, v). auto.
  - intros Hin. destruct (oget_of_key _ _ Hin) as [v ->]. reflexivity.
Qed.

Lemma getAncestors_keys_distinct parentOf merges fuel id ancestors :
  getAncestors fuel parentOf merges id = Some ancestors -> NoDup (map fst ancestors).
Proof.
  unfold getAncestors.
  destruct (resolveId fuel id merges) as [start|]; [|discriminate].
  destruct (dfs fuel parentOf start 0 ([], ∅)) as [[anc v]|] eqn:Ed; [|discriminate].
  intros [= <-].
  apply (dfs_records_real_depths parentOf start) in Ed as [_ HN];
    [exact HN | apply nsteps_O | split; constructor].
Qed.

(** The common ancestors are the same set whichever target comes
    first, and each gets the same path. *)
Lemma commonPaths_swap (ancestors1 ancestors2 : omap nat) :
  NoDup (map fst ancestors1) -> NoDup (map fst ancestors2) ->
  Permutation (commonPaths ancestors1 ancestors2) (commonPaths ancestors2 ancestors1).
Proof.
  intros Hn1 Hn2. unfold commonPaths.
  assert (Permutation
            (List.filter (fun a => ohas a ancestors2) (map fst ancestors1))
            (List.filter (fun a => ohas a ancestors1) (map fst ancestors2))) as Hperm.
  { apply NoDup_Permutation.
    - apply NoDup_ListNoDup, List.NoDup_filter, NoDup_ListNoDup, Hn1.
    - apply NoDup_ListNoDup, List.NoDup_filter, NoDup_ListNoDup, Hn2.
    - intros x. rewrite !list_elem_of_In, !filter_In, !ohas_true_keys. tauto. }
  erewrite map_ext.
  - apply Permutation_map, Hperm.
  - intros a. simpl. f_equal. lia.
Qed.

(** X26: the calculation is symmetric in the two targets: when it
    returns for a pedigree, with a list of paths on which the
    accumulation is exact, it returns for the pedigree with the targets
    exchanged, with the same paths up to their order and the same r
    and F. *)
Theorem X26_r_is_symmetric_in_the_targets
    (pedigree : DynamicPedigree) (fuel : nat) (result : PedigreeResult) :
  calculateFromPedigree fuel pedigree = Some result ->
  exactPathList (contributingPaths result) ->
  exists result',
    calculateFromPedigree fuel (swapTargets pedigree) = Some result' /\
    Permutation (contributingPaths result) (contributingPaths result') /\
    coefficientOfRelationship result == coefficientOfRelationship result' /\
    inbreedingCoefficient result == inbreedingCoefficient result'.
Proof.
  unfold calculateFromPedigree, swapTargets. simpl.
  destruct (targetPair pedigree) as [id1 id2]. simpl.
  unfold findAllPaths. simpl.
  destruct (buildParentOf fuel pedigree) as [parentOf|] eqn:Eb; [|discriminate].
  assert (buildParentOf fuel
            {| ped_persons := ped_persons pedigree; ped_edges := ped_edges pedigree;
               definedRelationships := definedRelationships pedigree;
               targetPair := (id2, id1); merges := merges pedigree |}
          = Some parentOf) as -> by exact Eb.
  destruct (getAncestors fuel parentOf (merges pedigree) id1) as [a1|] eqn:E1;
    [|discriminate].
  destruct (getAncestors fuel parentOf (merges pedigree) id2) as [a2|] eqn:E2;
    [|discriminate].
  intros [= <-] _. eexists. split; [reflexivity|]. simpl.
  pose proof (commonPaths_swap a1 a2 (getAncestors_keys_distinct _ _ _ _ _ E1)
                (getAncestors_keys_distinct _ _ _ _ _ E2)) as Hperm.
  assert (pathSum (commonPaths a1 a2) == pathSum (commonPaths a2 a1)) as Hsum.
  { rewrite !pathSum_sum. unfold rawPathSum.
    apply Qsum_perm, Permutation_map, Hperm. }
  split; [exact Hperm|]. rewrite Hsum. split; reflexivity.
Qed.

Lemma X26_witness :
  exists result',
    calculateFromPedigree 4 (swapTargets cousinsBase) = Some result' /\
    Permutation
      (contributingPaths
         (default (mkPedigreeResult 0 0 []) (calculateFromPedigree 4 cousinsBase)))
      (contributingPaths result') /\
    coefficientOfRelationship
      (default (mkPedigreeResult 0 0 []) (calculateFromPedigree 4 cousinsBase))
    == coefficientOfRelationship result' /\
    inbreedingCoefficient
      (default (mkPedigreeResult 0 0 []) (calculateFromPedigree 4 cousinsBase))
    == inbreedingCoefficient result'.
Proof.
  apply (X26_r_is_symmetric_in_the_targets cousinsBase 4).
  - vm_compute. reflexivity.
  - split.
    + vm_compute. lia.
    + cbv [default calculateFromPedigree]. vm_compute.
      repeat (apply Forall_cons; split; [lia|]). apply Forall_nil_2.
Defined.

End Symmetry.

(** * Properties of the application state *)

Section Application.

Import Dynamic App.

Lemma generateBasePedigree_targets (r : RelationshipType) (s1 s2 : Sex) :
  sex <$> ped_persons (generateBasePedigree r s1 s2) !! "p1" = Some s1 /\
  sex <$> ped_persons (generateBasePedigree r s1 s2) !! "p2" = Some s2.
Proof.
  split; [destruct r, s1 | destruct r, s2]; vm_compute; reflexivity.
Qed.

Lemma existsb_eqb_false (id : string) (l : list string) :
  existsb (String.eqb id) l = false -> ~ In id l.
Proof.
  intros Hex Hin. apply Bool.not_true_iff_false in Hex. apply Hex.
  apply existsb_exists. exists id. split; [exact Hin | apply String.eqb_refl].
Qed.

(** The selection never holds more than two ids, nor one id twice. *)
Lemma toggleSelection_small (prev : list string) (id : string) :
  length prev <= 2 -> NoDup prev ->
  length (toggleSelection prev id) <= 2 /\ NoDup (toggleSelection prev id).
Proof.
  intros Hlen Hnd. unfold toggleSelection.
  destruct (existsb (String.eqb id) prev) eqn:Ex.
  - split.
    + eapply Nat.le_trans; [apply filter_length_le | exact Hlen].
    + apply NoDup_ListNoDup, List.NoDup_filter, NoDup_ListNoDup, Hnd.
  - apply existsb_eqb_false in Ex.
    destruct prev as [|a [|b rest]]; simpl.
    + split; [lia | apply NoDup_singleton].
    + split; [lia|]. apply NoDup_cons. split; [|apply NoDup_singleton].
      rewrite list_elem_of_singleton. intros ->. apply Ex. left. reflexivity.
    + split; [lia|]. apply NoDup_cons. split; [|apply NoDup_singleton].
      rewrite list_elem_of_singleton. intros ->. apply Ex. right. left. reflexivity.
Qed.

Lemma handle_keeps_invariant (st : AppState) (e : Event) :
  appInvariant st -> appInvariant (handle st e).
Proof.
  intros (Ht & H1 & H2 & He & Hlen & Hnd & Hlog).
  destruct e as [r | s | s | personId | | nodeId | | t]; simpl.
  - (* RelationshipChange *)
    destruct (generateBasePedigree_targets r (person1Sex st) (person2Sex st)).
    repeat split; try assumption. constructor.
  - (* Person1SexChange *)
    unfold appInvariant, handlePerson1SexChange, setTargetSex. simpl. rewrite Ht. simpl.
    destruct (ped_persons (pedigree st) !! "p1") as [p|] eqn:E; [|discriminate H1].
    rewrite lookup_insert_eq, lookup_insert_ne by discriminate.
    repeat split; assumption.
  - (* Person2SexChange *)
    unfold appInvariant, handlePerson2SexChange, setTargetSex. simpl. rewrite Ht. simpl.
    destruct (ped_persons (pedigree st) !! "p2") as [p|] eqn:E; [|discriminate H2].
    rewrite lookup_insert_eq, lookup_insert_ne by discriminate.
    repeat split; assumption.
  - (* PersonSexToggle *)
    unfold appInvariant, handlePersonSexToggle. cbv zeta.
    destruct (ped_persons (pedigree st) !! personId) as [person|] eqn:E; simpl;
      [|repeat split; assumption].
    rewrite Ht. simpl.
    destruct (String.eqb_spec personId "p1") as [->|Hn1].
    + rewrite lookup_insert_eq, lookup_insert_ne by discriminate.
      repeat split; assumption.
    + destruct (String.eqb_spec personId "p2") as [->|Hn2].
      * rewrite lookup_insert_eq, lookup_insert_ne by discriminate.
        repeat split; assumption.
      * rewrite !lookup_insert_ne by congruence. repeat split; assumption.
  - (* ResetRelationships *)
    destruct (generateBasePedigree_targets (baseRelationship st)
                (person1Sex st) (person2Sex st)).
    repeat split; try assumption. constructor.
  - (* NodeClick *)
    destruct (toggleSelection_small (selectedNodes st) nodeId Hlen Hnd).
    repeat split; assumption.
  - (* EmptyClick *)
    repeat split; try assumption; [simpl; lia | constructor].
  - (* RelationshipSelect *)
    unfold handleRelationshipSelect.
    destruct (selectedNodes st) as [|a [|b [|c rest]]] eqn:Es;
      try (rewrite <- Es in *; repeat split; assumption).
    unfold appInvariant. simpl.
    repeat split; try assumption; [lia | constructor |].
    apply Forall_app. split; [exact Hlog|]. constructor; [|constructor]. simpl.
    apply NoDup_cons in Hnd as [Hab _]. intros ->. apply Hab. left.
Qed.

Lemma reachable_invariant (events : list Event) :
  appInvariant (run events initialState).
Proof.
  assert (appInvariant initialState) as Hinit.
  { repeat split; try reflexivity; try constructor. simpl. lia. }
  unfold run. revert Hinit. generalize initialState.
  induction events as [|e events IH]; intros st Hst; simpl; [exact Hst|].
  apply IH, handle_keeps_invariant, Hst.
Qed.

(** X27: in every state the application can reach from its initial
    state, by any sequence of relationship changes, sex changes, sex
    toggles, resets, clicks and declarations: the targets are p1 and
    p2, the two displayed sexes are the sexes of the two targets in the
    pedigree, the edges are those of the base pedigree of the displayed
    relationship, at most two distinct nodes are selected, and no
    declaration in the log joins a node to itself. *)
Theorem X27_reachable_states_keep_the_display_in_step (events : list Event) :
  let st := run events initialState in
  targetPair (pedigree st) = ("p1", "p2") /\
  sex <$> ped_persons (pedigree st) !! "p1" = Some (person1Sex st) /\
  sex <$> ped_persons (pedigree st) !! "p2" = Some (person2Sex st) /\
  ped_edges (pedigree st) = baseEdges (baseRelationship st) /\
  length (selectedNodes st) <= 2 /\ NoDup (selectedNodes st) /\
  Forall (fun decl => person1Id decl <> person2Id decl)
         (definedRelationships (pedigree st)).
Proof.
  cbv zeta. exact (reachable_invariant events).
Qed.

(** X28: the two sex changes and the sex toggle each leave what
    [calculateFromPedigree] returns, the log of declarations, the
    edges, the merge map and the target pair as they were. *)
Theorem X28_sex_changes_do_not_change_r
    (st : AppState) (s : Sex) (personId : string) (fuel : nat) :
  Forall
    (fun st' =>
       calculateFromPedigree fuel (pedigree st')
       = calculateFromPedigree fuel (pedigree st) /\
       definedRelationships (pedigree st') = definedRelationships (pedigree st) /\
       ped_edges (pedigree st') = ped_edges (pedigree st) /\
       merges (pedigree st') = merges (pedigree st) /\
       targetPair (pedigree st') = targetPair (pedigree st))
    [ handlePerson1SexChange st s;
      handlePerson2SexChange st s;
      handlePersonSexToggle st personId ].
Proof.
  assert (forall st',
            ped_edges (pedigree st') = ped_edges (pedigree st) ->
            merges (pedigree st') = merges (pedigree st) ->
            targetPair (pedigree st') = targetPair (pedigree st) ->
            definedRelationships (pedigree st') = definedRelationships (pedigree st) ->
            calculateFromPedigree fuel (pedigree st')
            = calculateFromPedigree fuel (pedigree st) /\
            definedRelationships (pedigree st') = definedRelationships (pedigree st) /\
            ped_edges (pedigree st') = ped_edges (pedigree st) /\
            merges (pedigree st') = merges (pedigree st) /\
            targetPair (pedigree st') = targetPair (pedigree st)) as Hframe.
  { intros st' He Hm Ht Hd. repeat split; try assumption.
    apply calculateFromPedigree_depends_on; assumption. }
  repeat (apply Forall_cons; split); [| | |apply Forall_nil_2].
  - apply Hframe; reflexivity.
  - apply Hframe; reflexivity.
  - apply Hframe; unfold handlePersonSexToggle; cbv zeta;
      destruct (ped_persons (pedigree st) !! personId); reflexivity.
Qed.

Lemma flip_flip (s : Sex) :
  match match s with M => F | F => M end with M => F | F => M end = s.
Proof. destruct s; reflexivity. Qed.

Lemma withSex_flip_flip (person : Person) :
  withSex (withSex person match sex person with M => F | F => M end)
    match match sex person with M => F | F => M end with M => F | F => M end
  = person.
Proof. destruct person as [? ? []]; reflexivity. Qed.

(** X29: toggling the sex of the same id twice gives back the
    pedigree, from any state; from a state the application can reach it
    gives back the whole state, displayed sexes included. *)
Theorem X29_toggling_twice_restores_the_state
    (st : AppState) (events : list Event) (personId : string) :
  pedigree (handlePersonSexToggle (handlePersonSexToggle st personId) personId)
  = pedigree st /\
  handlePersonSexToggle
    (handlePersonSexToggle (run events initialState) personId) personId
  = run events initialState.
Proof.
  split.
  - destruct st as [r s1 s2 [persons0 edges0 log pair merges0] sel].
    unfold handlePersonSexToggle. cbv zeta. simpl.
    destruct (persons0 !! personId) as [person|] eqn:E; simpl.
    + rewrite lookup_insert_eq. simpl. unfold withPersons. simpl. f_equal.
      rewrite insert_insert_eq, withSex_flip_flip. apply insert_id, E.
    + rewrite E. reflexivity.
  - destruct (reachable_invariant events) as (Ht & H1 & H2 & _).
    destruct (run events initialState)
      as [r s1 s2 [persons0 edges0 log pair merges0] sel].
    simpl in Ht, H1, H2. subst pair.
    unfold handlePersonSexToggle. cbv zeta. simpl.
    destruct (persons0 !! personId) as [person|] eqn:E; simpl.
    + rewrite lookup_insert_eq. simpl. unfold withPersons. simpl.
      rewrite insert_insert_eq, withSex_flip_flip, flip_flip, (insert_id _ _ _ E).
      destruct (String.eqb_spec personId "p1") as [->|Hn1].
      * rewrite E in H1. injection H1 as ->. reflexivity.
      * destruct (String.eqb_spec personId "p2") as [->|Hn2]; [|reflexivity].
        rewrite E in H2. injection H2 as ->. reflexivity.
    + rewrite E. reflexivity.
Qed.

(** X30: whenever the result shown by a reachable state is computed,
    its r and F are those that [calculateFromPedigree] returns for the
    pedigree of the state, the gene overlap is r, the X-linked
    coefficient is the table entry of the displayed relationship and
    the two displayed sexes and is not [null], the Y-linked coefficient
    is 1 when both displayed sexes are male and the displayed
    relationship is parent-child, siblings, grandparent-grandchild,
    avuncular or first-cousins and 0 otherwise, the baseline is the
    table entry of the displayed relationship and the delta is r minus
    the baseline. *)
Theorem X30_shown_result_matches_the_display
    (events : list Event) (fuel : nat) (result : ProbabilityResult) :
  let st := run events initialState in
  probabilityResult fuel st = Some result ->
  (exists computed,
     calculateFromPedigree fuel (pedigree st) = Some computed /\
     coefficientOfRelationshipOf result = coefficientOfRelationship computed /\
     inbreedingCoefficientOfResult result = inbreedingCoefficient computed) /\
  geneOverlapProbabilityOf result = coefficientOfRelationshipOf result /\
  xLinkedCoefficientOf result
  = Genetics.xLinkedTable (baseRelationship st) (person1Sex st) (person2Sex st) /\
  is_Some (xLinkedCoefficientOf result) /\
  ((yLinkedCoefficientOf result = Some 1%Q /\
    person1Sex st = M /\ person2Sex st = M /\
    In (baseRelationship st)
       [ParentChild; Siblings; GrandparentGrandchild; Avuncular; FirstCousins]) \/
   (yLinkedCoefficientOf result = Some 0%Q /\
    ~ (person1Sex st = M /\ person2Sex st = M /\
       In (baseRelationship st)
          [ParentChild; Siblings; GrandparentGrandchild; Avuncular; FirstCousins]))) /\
  baselineR result = Genetics.BASE_COEFFICIENTS (baseRelationship st) /\
  deltaFromBaseline result
  = (coefficientOfRelationshipOf result - baselineR result)%Q.
Proof.
  cbv zeta.
  destruct (reachable_invariant events) as (Ht & H1 & H2 & _).
  set (st := run events initialState) in *.
  unfold probabilityResult.
  destruct (calculateFromPedigree fuel (pedigree st)) as [res|]; [|discriminate].
  rewrite Ht. simpl.
  destruct (ped_persons (pedigree st) !! "p1") as [p1|]; [|discriminate H1].
  destruct (ped_persons (pedigree st) !! "p2") as [p2|]; [|discriminate H2].
  simpl in H1, H2. injection H1 as H1. injection H2 as H2.
  intros [= <-]. simpl.
  unfold Genetics.xLinkedCoefficient, Genetics.yLinkedCoefficient.
  rewrite H1, H2.
  split; [exists res; repeat split; reflexivity|].
  split; [reflexivity|]. split; [reflexivity|].
  split; [destruct (baseRelationship st), (person1Sex st), (person2Sex st); simpl; eauto|].
  split.
  { destruct (baseRelationship st), (person1Sex st), (person2Sex st); simpl;
      first [ left; split; [reflexivity|]; split; [reflexivity|];
              split; [reflexivity|]; tauto
            | right; split; [reflexivity|];
              intros (Hs1 & Hs2 & Hin);
              first [ discriminate Hs1 | discriminate Hs2
                    | repeat (destruct Hin as [Hin|Hin]; [discriminate Hin|]);
                      exact Hin ] ]. }
  split; [destruct (baseRelationship st); reflexivity|].
  reflexivity.
Qed.

Lemma X30_witness :
  let st := run [Person2SexChange M] initialState in
  let result := default (mkResult 0 0 0 None None 0 0) (probabilityResult 4 st) in
  yLinkedCoefficientOf result = Some 1%Q /\
  xLinkedCoefficientOf result
  = Genetics.xLinkedTable (baseRelationship st) (person1Sex st) (person2Sex st).
Proof.
  cbv zeta. split; [vm_compute; reflexivity|].
  refine (proj1 (proj2 (proj2
    (X30_shown_result_matches_the_display [Person2SexChange M] 4 _ _))));
    vm_compute; reflexivity.
Defined.

End Application.
